(** * HLS proxy (main.py): header policy, content classifier, manifest
    rewriter and request handler, with the properties of the specification.

    Python [str] values are lists of 8-bit characters; a [dict] with string
    keys is a finite map; a call that may raise returns a value of a sum
    type, an exception on the left and the result on the right. *)

From Stdlib Require Import Ascii String ZArith Lia.
From stdpp Require Import gmap strings list fin_maps.

Local Open Scope char_scope.

(** ** Calls that may raise

    [do x <- e; k] runs [e]; an exception raised by [e] is the outcome, and
    otherwise [k] goes on with the result. *)

Definition bind {E A B : Type} (x : E + A) (k : A -> E + B) : E + B :=
  match x with
  | inl e => inl e
  | inr a => k a
  end.

Notation "'do' x <- e ; k" := (bind e (fun x => k))
  (at level 20, x name, e at level 100, k at level 200).

(** ** Python's [str] operations used by the program *)

Module PyStr.

Abbreviation str := (list ascii).

(** A literal. *)
Definition lit (s : string) : str := list_ascii_of_string s.

(** [s.startswith(p)] *)
Fixpoint startswith (s p : str) {struct p} : bool :=
  match p, s with
  | [], _ => true
  | _ :: _, [] => false
  | a :: p', b :: s' => if Ascii.eqb a b then startswith s' p' else false
  end.

(** [s.endswith(p)]: some tail of [s] is [p]. *)
Fixpoint endswith (s p : str) : bool :=
  if bool_decide (s = p) then true
  else match s with
       | [] => false
       | _ :: s' => endswith s' p
       end.

(** [p in s]: [p] occurs in [s] as a contiguous substring. *)
Fixpoint contains (p s : str) : bool :=
  if startswith s p then true
  else match s with
       | [] => false
       | _ :: s' => contains p s'
       end.

Definition is_upper (c : ascii) : bool :=
  (65 <=? nat_of_ascii c)%nat && (nat_of_ascii c <=? 90)%nat.

Definition is_lower (c : ascii) : bool :=
  (97 <=? nat_of_ascii c)%nat && (nat_of_ascii c <=? 122)%nat.

Definition lower_char (c : ascii) : ascii :=
  if is_upper c then ascii_of_nat (nat_of_ascii c + 32) else c.

Definition upper_char (c : ascii) : ascii :=
  if is_lower c then ascii_of_nat (nat_of_ascii c - 32) else c.

(** [s.lower()] and [s.upper()] on the ASCII letters. *)
Definition lower (s : str) : str := map lower_char s.
Definition upper (s : str) : str := map upper_char s.

(** Left-to-right scan for non-overlapping hits, the loop shared by
    [str.replace] and [re.sub].  At a position where [hit] reports [n]
    characters and an output text, the text is emitted and the scan goes on
    after the hit; an empty hit emits its text and copies one character;
    where nothing is reported the character is copied.  [skip] counts the
    characters of the current hit still to pass over. *)
Fixpoint scan (hit : str -> option (nat * str)) (skip : nat) (s : str) : str :=
  match skip with
  | S k => match s with
           | [] => []
           | _ :: s' => scan hit k s'
           end
  | O => match s with
         | [] => match hit [] with
                 | Some (_, out) => out
                 | None => []
                 end
         | c :: s' =>
             match hit s with
             | Some (O, out) => out ++ c :: scan hit 0 s'
             | Some (S k, out) => out ++ scan hit k s'
             | None => c :: scan hit 0 s'
             end
         end
  end.

(** [s.replace(old, new)]: every non-overlapping occurrence, from the left. *)
Definition replace (old new s : str) : str :=
  scan (fun t => if startswith t old then Some (length old, new) else None) 0 s.

(** The offsets at which [old] occurs in [s], overlapping occurrences
    included. *)
Fixpoint occurrences (old s : str) : list nat :=
  (if startswith s old then [0%nat] else [])
  ++ match s with
     | [] => []
     | _ :: s' => S <$> occurrences old s'
     end.

(** [s.split(c)[0]]: the text before the first [c]. *)
Fixpoint before_first (c : ascii) (s : str) : str :=
  match s with
  | [] => []
  | a :: s' => if Ascii.eqb a c then [] else a :: before_first c s'
  end.

(** [s.rsplit(c, 1)[0]] when [c] occurs in [s]: the text before the last
    [c]; [None] when [c] does not occur. *)
Fixpoint before_last (c : ascii) (s : str) : option str :=
  match s with
  | [] => None
  | a :: s' =>
      match before_last c s' with
      | Some r => Some (a :: r)
      | None => if Ascii.eqb a c then Some [] else None
      end
  end.

End PyStr.

Import PyStr.

Definition nl : ascii := "010".
Definition dquote : ascii := "034".
Definition hash : ascii := "#".

(** ** Exceptions

    The exceptions the program meets: [httpx.RequestError], Starlette's
    [HTTPException], [ValueError] (raised by [urllib.parse]) and any
    other. *)

Inductive exn :=
| RequestError (msg : str)
| HTTPException (status_code : Z) (detail : str)
| ValueError (msg : str)
| OtherError (msg : str).

(** ** urllib.parse: the parts of a split URL

    [urlsplit] follows CPython's [urllib.parse.urlsplit]: leading C0 control
    characters and spaces are stripped, tab, CR and LF are removed, a scheme
    is a letter followed by letters, digits, [+], [-] or [.] up to the first
    colon, the network location follows [//] up to the next [/], [?] or [#].
    [urlparse] has the same scheme and network location.  A network
    location with an opening bracket and no closing one, or the other way
    round, raises [ValueError]; a bracketed host is taken as it is. *)

Module Urllib.

Record SplitResult := {
  scheme : str;
  netloc : str;
  path : str;
  query : str;
  fragment : str
}.

Definition is_c0_or_space (c : ascii) : bool := (nat_of_ascii c <=? 32)%nat.

Definition is_unsafe (c : ascii) : bool :=
  Ascii.eqb c "009" || Ascii.eqb c "010" || Ascii.eqb c "013".

Definition is_digit (c : ascii) : bool :=
  (48 <=? nat_of_ascii c)%nat && (nat_of_ascii c <=? 57)%nat.

Definition is_alpha (c : ascii) : bool := is_upper c || is_lower c.

Definition is_scheme_char (c : ascii) : bool :=
  is_alpha c || is_digit c || Ascii.eqb c "+" || Ascii.eqb c "-" || Ascii.eqb c ".".

Fixpoint drop_while (f : ascii -> bool) (s : str) : str :=
  match s with
  | [] => []
  | c :: s' => if f c then drop_while f s' else s
  end.

Fixpoint take_while (f : ascii -> bool) (s : str) : str :=
  match s with
  | [] => []
  | c :: s' => if f c then c :: take_while f s' else []
  end.

(** [s.split(c, 1)] when [c] occurs in [s]. *)
Fixpoint split_first (c : ascii) (s : str) : option (str * str) :=
  match s with
  | [] => None
  | a :: s' =>
      if Ascii.eqb a c then Some ([], s')
      else match split_first c s' with
           | Some (l, r) => Some (a :: l, r)
           | None => None
           end
  end.

Definition is_netloc_delim (c : ascii) : bool :=
  Ascii.eqb c "/" || Ascii.eqb c "?" || Ascii.eqb c "#".

Definition split_scheme (url : str) : str * str :=
  match split_first ":" url with
  | Some (c :: pre, rest) =>
      if is_alpha c && forallb is_scheme_char (c :: pre)
      then (lower (c :: pre), rest)
      else ([], url)
  | _ => ([], url)
  end.

Definition split_netloc (url : str) : str * str :=
  if startswith url (lit "//")
  then (take_while (fun c => negb (is_netloc_delim c)) (drop 2 url),
        drop_while (fun c => negb (is_netloc_delim c)) (drop 2 url))
  else ([], url).

Definition split_parts (url : str) : SplitResult :=
  let url := drop_while is_c0_or_space url in
  let url := filter (fun c => is_unsafe c = false) url in
  let '(sch, url) := split_scheme url in
  let '(loc, url) := split_netloc url in
  let '(url, frag) := match split_first "#" url with
                      | Some (l, r) => (l, r)
                      | None => (url, [])
                      end in
  let '(url, qry) := match split_first "?" url with
                     | Some (l, r) => (l, r)
                     | None => (url, [])
                     end in
  {| scheme := sch; netloc := loc; path := url; query := qry; fragment := frag |}.

Definition has (c : ascii) (s : str) : bool := existsb (Ascii.eqb c) s.

Definition urlsplit (url : str) : exn + SplitResult :=
  let parts := split_parts url in
  if xorb (has "[" (netloc parts)) (has "]" (netloc parts))
  then inl (ValueError (lit "Invalid IPv6 URL"))
  else inr parts.

Definition urlparse (url : str) : exn + SplitResult := urlsplit url.

(** Resolution of a reference against a directory.  [urljoin] returns the
    reference when the base is empty and the base when the reference is
    empty, and otherwise parses first the base and then the reference, so
    that it raises where [urlparse] does; the merge step that follows is the
    one of relative resolution, with which [urllib.parse.urljoin] agrees
    when the base ends in [/] and has a network location and the reference
    is a plain relative path without dot segments.  It serves as the
    resolver of the worked examples; the properties of the rewriter are
    proved for any resolver. *)
Definition urljoin_merge (base url : str) : exn + str :=
  match base, url with
  | [], _ => inr url
  | _, [] => inr base
  | _, _ =>
      do _ <- urlparse base;
      do _ <- urlparse url;
      inr (match before_last "/" base with
           | Some dir => dir ++ "/" :: url
           | None => url
           end)
  end.

End Urllib.

(** ** The fragment of [re] used by the rewriter

    A pattern is a sequence of items: a literal, a greedy [c*] over a
    character class, and the capturing group [(c+)].  Each of the five
    patterns of the rewriter has exactly one group. *)

Module Re.

Inductive item :=
| Lit (l : str)
| Star (c : ascii -> bool)
| Group (c : ascii -> bool).

(** A match: [group(0)] is [m_pre ++ m_grp ++ m_post], [group(1)] is [m_grp]. *)
Record re_match := {
  m_pre : str;
  m_grp : str;
  m_post : str
}.

Definition group0 (m : re_match) : str := m_pre m ++ m_grp m ++ m_post m.
Definition group1 (m : re_match) : str := m_grp m.

Definition push (l : str) (m : re_match) : re_match :=
  {| m_pre := l ++ m_pre m; m_grp := m_grp m; m_post := m_post m |}.

Definition grow (a : ascii) (m : re_match) : re_match :=
  {| m_pre := []; m_grp := a :: m_grp m; m_post := m_post m |}.

Definition close (a : ascii) (m : re_match) : re_match :=
  {| m_pre := []; m_grp := [a]; m_post := group0 m |}.

(** A greedy [c*] followed by the rest of the pattern [k], as the
    backtracking matcher runs it: one more character is tried first, the
    rest of the pattern is the fallback. *)
Fixpoint star (c : ascii -> bool) (k : str -> option re_match) (s : str)
    : option re_match :=
  match s with
  | a :: s' =>
      if c a then
        match star c k s' with
        | Some m => Some (push [a] m)
        | None => k s
        end
      else k s
  | [] => k []
  end.

(** The group [(c+)] followed by the rest of the pattern [k]. *)
Fixpoint plus (c : ascii -> bool) (k : str -> option re_match) (s : str)
    : option re_match :=
  match s with
  | a :: s' =>
      if c a then
        match plus c k s' with
        | Some m => Some (grow a m)
        | None => close a <$> k s'
        end
      else None
  | [] => None
  end.

(** The match of a pattern at the start of a text. *)
Fixpoint match_here (p : list item) : str -> option re_match :=
  match p with
  | [] => fun _ => Some {| m_pre := []; m_grp := []; m_post := [] |}
  | Lit l :: p' => fun s =>
      if startswith s l then push l <$> match_here p' (drop (length l) s)
      else None
  | Star c :: p' => star c (match_here p')
  | Group c :: p' => plus c (match_here p')
  end.

(** The loop of [scan] for a replacement that may raise: the outputs of the
    hits are computed from the left, and the first exception is the
    outcome. *)
Fixpoint scan_sub {E : Type} (hit : str -> option (nat * (E + str)))
    (skip : nat) (s : str) : E + str :=
  match skip with
  | S k => match s with
           | [] => inr []
           | _ :: s' => scan_sub hit k s'
           end
  | O => match s with
         | [] => match hit [] with
                 | Some (_, out) => out
                 | None => inr []
                 end
         | c :: s' =>
             match hit s with
             | Some (O, out) =>
                 do o <- out; do r <- scan_sub hit 0 s'; inr (o ++ c :: r)
             | Some (S k, out) =>
                 do o <- out; do r <- scan_sub hit k s'; inr (o ++ r)
             | None => do r <- scan_sub hit 0 s'; inr (c :: r)
             end
         end
  end.

(** [re.sub(p, repl, s)] with a function as replacement; what the function
    raises, [re.sub] raises. *)
Definition sub {E : Type} (p : list item) (repl : re_match -> E + str)
    (s : str) : E + str :=
  scan_sub (fun t => match match_here p t with
                     | Some m => Some (length (group0 m), repl m)
                     | None => None
                     end) 0 s.

Definition is_group (i : item) : bool :=
  match i with
  | Group _ => true
  | _ => false
  end.

(** Character classes. *)
Definition not_nl (c : ascii) : bool := negb (Ascii.eqb c nl).
Definition not_nl_hash (c : ascii) : bool :=
  negb (Ascii.eqb c nl) && negb (Ascii.eqb c hash).
Definition not_dquote (c : ascii) : bool := negb (Ascii.eqb c dquote).

End Re.

Import Re.

(** ** The program *)

Local Open Scope Z_scope.

(** *** Header policy of [fetch_with_referer] *)

Definition request_dropped : list str :=
  [lit "host"; lit "connection"; lit "content-length"; lit "content-encoding"].

Definition user_agent : str :=
  lit "Mozilla/5.0 (Windows NT 10.0; Win64; x64) AppleWebKit/537.36 "
  ++ lit "(KHTML, like Gecko) Chrome/110.0.0.0 Safari/537.36".

Section HeaderPolicy.

Variable urlparse : str -> exn + Urllib.SplitResult.

(** The dictionary built before the request is sent; a value may be [None]
    until the last step removes such entries.  The value of [Origin] is
    computed, and [urlparse] may raise, when the dictionary of the common
    headers is built. *)
Definition outbound_headers (referer : option str)
    (original_headers : option (gmap str str)) : exn + gmap str str :=
  let headers : gmap str (option str) := ∅ in
  let headers :=
    match original_headers with
    | Some oh =>
        if bool_decide (oh = ∅) then headers
        else (Some <$> filter (fun kv => lower kv.1 ∉ request_dropped) oh) ∪ headers
    | None => headers
    end in
  let headers :=
    match referer with
    | Some (c :: r) => <[lit "Referer" := Some (c :: r)]> headers
    | _ => headers
    end in
  do origin <- match referer with
               | Some (c :: r) =>
                   do parsed <- urlparse (c :: r);
                   inr (Some (Urllib.netloc parsed))
               | _ => inr None
               end;
  let headers := <[lit "User-Agent" := Some user_agent]> headers in
  let headers := <[lit "Accept" := Some (lit "*/*")]> headers in
  let headers := <[lit "Accept-Language" := Some (lit "en-US,en;q=0.9")]> headers in
  let headers := <[lit "Origin" := origin]> headers in
  let headers := <[lit "Connection" := Some (lit "keep-alive")]> headers in
  inr (omap id headers).

End HeaderPolicy.

(** *** Content classifier and response headers of [proxy_hls] *)

Definition is_m3u8 (content_type url : str) : bool :=
  contains (lit "application/vnd.apple.mpegurl") (lower content_type)
  || contains (lit "application/x-mpegurl") (lower content_type)
  || endswith url (lit ".m3u8").

Definition response_dropped : list str :=
  [lit "transfer-encoding"; lit "content-encoding"; lit "content-length"].

Definition client_headers (upstream : gmap str str) : gmap str str :=
  let headers := filter (fun kv => lower kv.1 ∉ response_dropped) upstream in
  let headers := <[lit "Access-Control-Allow-Origin" := lit "*"]> headers in
  let headers := <[lit "Access-Control-Allow-Methods" := lit "GET, OPTIONS"]> headers in
  <[lit "Access-Control-Allow-Headers" := lit "*"]> headers.

(** The names of the three CORS headers. *)
Definition cors_names : list str :=
  [lit "Access-Control-Allow-Origin"; lit "Access-Control-Allow-Methods";
   lit "Access-Control-Allow-Headers"].

(** *** [rewrite_m3u8_content] *)

(** The directive, the rest of its line, a newline, and as group the run
    of characters other than newline and [#] that starts the next line. *)
Definition next_line_pattern (directive : str) : list item :=
  [Lit directive; Star not_nl; Lit [nl]; Group not_nl_hash].

(** The directive, any characters of its line, [URI=], and as group the
    text between the double quotes that follow. *)
Definition attribute_pattern (directive : str) : list item :=
  [Lit directive; Star not_nl; Lit (lit "URI=" ++ [dquote]);
   Group not_dquote; Lit [dquote]].

Definition pat_stream_inf : list item := next_line_pattern (lit "#EXT-X-STREAM-INF:").
Definition pat_extinf : list item := next_line_pattern (lit "#EXTINF:").
Definition pat_map : list item :=
  [Lit (lit "#EXT-X-MAP:URI=" ++ [dquote]); Group not_dquote; Lit [dquote]].
Definition pat_media : list item := attribute_pattern (lit "#EXT-X-MEDIA:").
Definition pat_i_frame : list item :=
  attribute_pattern (lit "#EXT-X-I-FRAME-STREAM-INF:").

Definition patterns : list (list item) :=
  [pat_stream_inf; pat_extinf; pat_map; pat_media; pat_i_frame].

(** [for pattern in patterns: result = re.sub(pattern, repl, result)] *)
Fixpoint passes (repl : re_match -> exn + str) (ps : list (list item))
    (result : str) : exn + str :=
  match ps with
  | [] => inr result
  | pattern :: ps' =>
      do result <- sub pattern repl result;
      passes repl ps' result
  end.

Section Rewriter.

Variable urlparse : str -> exn + Urllib.SplitResult.
Variable urljoin : str -> str -> exn + str.

Variable base_url proxy_path : str.
Variable referer : option str.

(** The function [rewrite_url] defined inside [rewrite_m3u8_content], with
    the [base_scheme] and [base_netloc] of the enclosing call. *)
Section Closure.

Variable base_scheme base_netloc : str.

Definition absolute_url (url : str) : exn + str :=
  if startswith url (lit "http://") || startswith url (lit "https://") then inr url
  else if startswith url (lit "/") then
    inr (base_scheme ++ lit "://" ++ base_netloc ++ url)
  else urljoin base_url url.

Definition proxy_url (url : str) : exn + str :=
  do absolute_url <- absolute_url url;
  let proxy_url := proxy_path ++ lit "?url=" ++ absolute_url in
  inr (match referer with
       | Some (c :: r) => proxy_url ++ lit "&referer=" ++ c :: r
       | _ => proxy_url
       end).

Definition rewrite_url (m : re_match) : exn + str :=
  let url := group1 m in
  do proxy_url <- proxy_url url;
  inr (replace url proxy_url (group0 m)).

(** The first two passes of [rewrite_m3u8_content], whose reference is the
    next line, and the last three, whose reference is a quoted attribute. *)
Definition rewrite_next_line (content : str) : exn + str :=
  passes rewrite_url [pat_stream_inf; pat_extinf] content.


End Closure.

Definition rewrite_m3u8_content (content : str) : exn + str :=
  do parsed_base <- urlparse base_url;
  let base_scheme := Urllib.scheme parsed_base in
  let base_netloc := Urllib.netloc parsed_base in
  passes (rewrite_url base_scheme base_netloc) patterns content.

End Rewriter.

(** A text at which the group of a next-line pattern cannot start: the end
    of the document, an empty line or a line that starts with [#]. *)
Definition stops (t : str) : Prop :=
  match t with
  | [] => True
  | c :: _ => not_nl_hash c = false
  end.


(** *** [fetch_with_referer] and [proxy_hls] *)

Record UpstreamResponse := {
  status_code : Z;
  headers : gmap str str;
  text : str;
  body_chunks : list str
}.

Record Request := {
  req_url : str;
  req_headers : gmap str str
}.

Inductive Body :=
| Content (content : str)
| Streaming (chunks : list str).

Record Response := {
  resp_body : Body;
  resp_headers : gmap str str;
  resp_status : Z
}.

Section Handler.

Variable urlparse : str -> exn + Urllib.SplitResult.
Variable urljoin : str -> str -> exn + str.

(** The HTTP client: method, URL, headers and body to a response, or the
    exception it raises. *)
Variable client_request :
  str -> str -> gmap str str -> option str -> exn + UpstreamResponse.

(** [str(e)] *)
Variable exn_str : exn -> str.

(** The headers are built before the [try]; inside it a request error of
    the client becomes the 502 exception. *)
Definition fetch_with_referer (url : str) (referer : option str)
    (original_headers : option (gmap str str)) (method : str)
    (data : option str) : exn + UpstreamResponse :=
  do headers <- outbound_headers urlparse referer original_headers;
  let attempt :=
    if bool_decide (upper method = lit "GET") then
      client_request (lit "GET") url headers None
    else if bool_decide (upper method = lit "POST") then
      client_request (lit "POST") url headers data
    else client_request method url headers data in
  match attempt with
  | inr response => inr response
  | inl (RequestError e) =>
      inl (HTTPException 502 (lit "Error proxying request: " ++ e))
  | inl e => inl e
  end.

Definition base_of (url : str) : str :=
  match before_last "/" url with
  | Some dir => dir ++ lit "/"
  | None => url
  end.

(** The body of the [try] block. *)
Definition proxy_hls_try (request : Request) (url : str)
    (referer : option str) : exn + Response :=
  let original_headers := req_headers request in
  do response <-
    fetch_with_referer url referer (Some original_headers) (lit "GET") None;
  let content_type := default [] (headers response !! lit "content-type") in
  let out := client_headers (headers response) in
  if is_m3u8 content_type url then
    let content := text response in
    let base_url := base_of url in
    let proxy_path := before_first "?" (req_url request) in
    do rewritten_content <-
      rewrite_m3u8_content urlparse urljoin base_url proxy_path referer content;
    inr {| resp_body := Content rewritten_content;
           resp_headers := out;
           resp_status := status_code response |}
  else
    inr {| resp_body := Streaming (body_chunks response);
           resp_headers := out;
           resp_status := status_code response |}.

(** [except Exception as e: raise HTTPException(500, ...)] *)
Definition proxy_hls (request : Request) (url : str)
    (referer : option str) : exn + Response :=
  match proxy_hls_try request url referer with
  | inr r => inr r
  | inl e => inl (HTTPException 500 (lit "Proxy error: " ++ exn_str e))
  end.

End Handler.

(** ** Further definitions *)

(** The keys [fetch_with_referer] sets itself. *)
Definition overlay_names : list str :=
  [lit "Referer"; lit "User-Agent"; lit "Accept"; lit "Accept-Language";
   lit "Origin"; lit "Connection"].

(** [options_handler]: a response with the preflight headers, no body and
    the default status. *)
Definition options_handler : Response :=
  let headers : gmap str str :=
    <[lit "Access-Control-Max-Age" := lit "86400"]>
      (<[lit "Access-Control-Allow-Headers" := lit "*"]>
         (<[lit "Access-Control-Allow-Methods" := lit "GET, OPTIONS"]>
            (<[lit "Access-Control-Allow-Origin" := lit "*"]> ∅))) in
  {| resp_body := Content []; resp_headers := headers; resp_status := 200 |}.

(** The literal a pattern starts with. *)
Definition pattern_head (p : list item) : str :=
  match p with
  | Lit l :: _ => l
  | _ => []
  end.

(** The number of newline characters of a text. *)
Fixpoint newlines (s : str) : nat :=
  match s with
  | [] => 0%nat
  | c :: s' => ((if Ascii.eqb c nl then 1 else 0) + newlines s')%nat
  end.

(** [URI=] followed by a double quote. *)
Definition uri_attr : str := lit "URI=" ++ [dquote].

(** ** Data of the worked examples *)

Definition ex_base : str := lit "https://cdn.example.com/live/".
Definition ex_proxy : str := lit "http://proxy.local/proxy".
Definition ex_referer : str := lit "https://example.com/page".
Definition ex_url : str := lit "https://cdn.example.com/live/seg1.ts".

(** The scheme and the network location of [ex_base]. *)
Definition ex_scheme : str := lit "https".
Definition ex_netloc : str := lit "cdn.example.com".

Definition ex_playlist_url : str := lit "https://cdn.example.com/live/index.m3u8".

(** A referer whose network location opens a bracket and does not close
    it. *)
Definition ex_bad_referer : str := lit "http://[::1".

Definition ex_response : UpstreamResponse :=
  {| status_code := 404;
     headers := {[ lit "content-type" := lit "video/mp2t";
                   lit "content-length" := lit "5";
                   lit "server" := lit "nginx" ]};
     text := lit "gone!";
     body_chunks := [lit "gone!"] |}.

Definition ex_request : Request :=
  {| req_url := lit "http://proxy.local/proxy?url=https://cdn.example.com/live/seg1.ts";
     req_headers := {[ lit "host" := lit "proxy.local"; lit "accept" := lit "*/*" ]} |}.

Definition ex_client (method url : str) (h : gmap str str) (data : option str)
    : exn + UpstreamResponse := inr ex_response.

Definition ex_down_client (method url : str) (h : gmap str str)
    (data : option str) : exn + UpstreamResponse :=
  inl (RequestError (lit "timed out")).

Definition ex_exn_str (e : exn) : str :=
  match e with
  | RequestError msg => msg
  | HTTPException _ detail => detail
  | ValueError msg => msg
  | OtherError msg => msg
  end.

(** [#EXTINF:10,seg1.ts], a newline, [seg1.ts]: the title repeats the
    file name. *)
Definition ex_titled_segment : str :=
  lit "#EXTINF:10,seg1.ts" ++ [nl] ++ lit "seg1.ts".

(** [#EXTM3U], [#EXTINF:10,seg1.ts], [seg1.ts] on three lines. *)
Definition ex_titled_playlist : str :=
  lit "#EXTM3U" ++ [nl] ++ ex_titled_segment.


Definition ex_plain_segment : str :=
  lit "#EXTINF:10," ++ [nl] ++ lit "seg1.ts".

(** The matches of the [#EXTINF] pattern in the two texts above. *)
Definition ex_plain_match : re_match :=
  {| m_pre := lit "#EXTINF:10," ++ [nl]; m_grp := lit "seg1.ts"; m_post := [] |}.

Definition ex_titled_match : re_match :=
  {| m_pre := lit "#EXTINF:10,seg1.ts" ++ [nl];
     m_grp := lit "seg1.ts";
     m_post := [] |}.

Definition ex_proxied : str :=
  lit "http://proxy.local/proxy?url=https://cdn.example.com/live/seg1.ts".

Definition ex_query_url : str :=
  lit "https://cdn.example.com/live/index.m3u8?token=abc".

(** [#EXTM3U], [#EXT-X-VERSION:3] and [#EXT-X-ENDLIST] on three lines. *)
Definition ex_comment_playlist : str :=
  lit "#EXTM3U" ++ [nl] ++ lit "#EXT-X-VERSION:3" ++ [nl] ++ lit "#EXT-X-ENDLIST".

(** The attributes of an [#EXT-X-MEDIA] line that come before its last
    [URI=]: a first [URI] attribute with the value [a.m3u8], and a name. *)
Definition ex_first_attrs : str :=
  uri_attr ++ lit "a.m3u8" ++ [dquote] ++ lit ",NAME=x,".

Definition ex_proxied_b : str :=
  lit "http://proxy.local/proxy?url=https://cdn.example.com/live/b.m3u8".

Definition ex_proxied_init : str :=
  lit "http://proxy.local/proxy?url=https://cdn.example.com/live/init.mp4".

(** The output of the rewriter for [ex_titled_playlist]. *)
Definition ex_titled_output : str :=
  lit "#EXTM3U" ++ [nl] ++ lit "#EXTINF:10," ++ ex_proxied ++ [nl] ++ ex_proxied.

(** A playlist answered with the status 404, and the client that returns
    it. *)
Definition ex_playlist_response : UpstreamResponse :=
  {| status_code := 404;
     headers := {[ lit "content-type" := lit "application/vnd.apple.mpegurl";
                   lit "content-length" := lit "19" ]};
     text := ex_plain_segment;
     body_chunks := [ex_plain_segment] |}.

Definition ex_playlist_client (method url : str) (h : gmap str str)
    (data : option str) : exn + UpstreamResponse := inr ex_playlist_response.

(** [#EXTINF:10,] and on the next line a reference whose network location
    opens a bracket and does not close it; the playlist is answered with
    the status 200. *)
Definition ex_bad_playlist : str := lit "#EXTINF:10," ++ [nl] ++ lit "x://[bad".

Definition ex_bad_response : UpstreamResponse :=
  {| status_code := 200;
     headers := {[ lit "content-type" := lit "application/vnd.apple.mpegurl" ]};
     text := ex_bad_playlist;
     body_chunks := [ex_bad_playlist] |}.

Definition ex_bad_client (method url : str) (h : gmap str str)
    (data : option str) : exn + UpstreamResponse := inr ex_bad_response.



(** Inbound headers that name their origin, as a browser sends them. *)
Definition ex_browser_headers : gmap str str :=
  {[ lit "host" := lit "proxy.local";
     lit "origin" := lit "https://player.example" ]}.

(** * Properties *)

(** Two literals differ. *)
Ltac lit_ne := vm_compute; congruence.

(** ** Strings *)

Section PyStrFacts.

Implicit Types s p t old new : str.

Lemma startswith_spec s p : startswith s p = true <-> exists t, s = p ++ t.
Proof.
  revert s. induction p as [|a p IH]; intros s; simpl.
  - split; [intros _; by exists s | done].
  - destruct s as [|b s].
    + split; [done | intros [t Ht]; discriminate].
    + destruct (Ascii.eqb_spec a b) as [->|Hne].
      * rewrite IH. split; intros [t Ht]; exists t; congruence.
      * split; [done | intros [t Ht]; congruence].
Qed.

Lemma startswith_app p t : startswith (p ++ t) p = true.
Proof. apply startswith_spec. by exists t. Qed.

Lemma startswith_false s p :
  startswith s p = false <-> ~ exists t, s = p ++ t.
Proof.
  rewrite <- startswith_spec. destruct (startswith s p); split; done.
Qed.

Lemma startswith_cons a b s p :
  startswith (b :: s) (a :: p) = if Ascii.eqb a b then startswith s p else false.
Proof. reflexivity. Qed.

Lemma not_elem_of_check (x : ascii) s :
  forallb (fun c => negb (Ascii.eqb c x)) s = true -> x ∉ s.
Proof.
  induction s as [|c s IH]; simpl; [intros _; apply not_elem_of_nil|].
  intros [Hc Hs]%andb_true_iff. rewrite not_elem_of_cons. split; [|by apply IH].
  apply negb_true_iff, Ascii.eqb_neq in Hc. congruence.
Qed.

Lemma contains_spec p s :
  contains p s = true <-> exists a b, s = a ++ p ++ b.
Proof.
  induction s as [|c s IH]; simpl.
  - destruct (startswith [] p) eqn:E.
    + apply startswith_spec in E as [t Ht]. split; [|done].
      intros _. by exists [], t.
    + split; [done|]. intros (a & b & H).
      destruct a; [|discriminate]. simpl in H.
      apply startswith_false in E. destruct E. by exists b.
  - destruct (startswith (c :: s) p) eqn:E.
    + apply startswith_spec in E as [t Ht]. split; [|done].
      intros _. by exists [], t.
    + rewrite IH. apply startswith_false in E. split.
      * intros (a & b & ->). by exists (c :: a), b.
      * intros (a & b & H). destruct a as [|c' a].
        -- destruct E. by exists b.
        -- injection H as -> ->. by exists a, b.
Qed.

Lemma endswith_spec s p : endswith s p = true <-> exists a, s = a ++ p.
Proof.
  induction s as [|c s IH]; simpl.
  - case_bool_decide as E.
    + subst p. split; [|done]. intros _. by exists [].
    + split; [done|]. intros [a H]. destruct a; [|discriminate].
      simpl in H. congruence.
  - case_bool_decide as E.
    + split; [|done]. intros _. exists []. by rewrite E.
    + rewrite IH. split.
      * intros [a ->]. by exists (c :: a).
      * intros [a H]. destruct a as [|c' a]; [simpl in H; congruence|].
        injection H as -> ->. by exists a.
Qed.

(** The scan passes over a hit. *)
Lemma scan_skip hit a b : scan hit (length a) (a ++ b) = scan hit 0 b.
Proof. induction a as [|c a IH]; [done | apply IH]. Qed.

Lemma scan_hit hit a b out :
  a <> [] -> hit (a ++ b) = Some (length a, out) ->
  scan hit 0 (a ++ b) = out ++ scan hit 0 b.
Proof.
  destruct a as [|c a]; [done|]. intros _ H. simpl in *. rewrite H.
  by rewrite scan_skip.
Qed.

Lemma scan_miss hit c s :
  hit (c :: s) = None -> scan hit 0 (c :: s) = c :: scan hit 0 s.
Proof. intros H. simpl. by rewrite H. Qed.

Lemma replace_hit old new t :
  old <> [] -> replace old new (old ++ t) = new ++ replace old new t.
Proof.
  intros Hne. unfold replace. apply scan_hit; [done|].
  by rewrite startswith_app.
Qed.

Lemma replace_miss old new c s :
  startswith (c :: s) old = false ->
  replace old new (c :: s) = c :: replace old new s.
Proof. intros H. unfold replace. apply scan_miss. by rewrite H. Qed.

Lemma replace_nil old new : old <> [] -> replace old new [] = [].
Proof. intros H. destruct old; done. Qed.

(** A text in which [old] does not occur is unchanged. *)
Lemma replace_absent old new s :
  old <> [] -> (~ exists a b, s = a ++ old ++ b) -> replace old new s = s.
Proof.
  intros Hne. induction s as [|c s IH]; intros H.
  - by apply replace_nil.
  - rewrite replace_miss.
    + f_equal. apply IH. intros (a & b & ->). apply H. by exists (c :: a), b.
    + apply startswith_false. intros [t Ht]. apply H. by exists [], t.
Qed.

(** A text in which [old] occurs once has that occurrence replaced and the
    rest kept. *)
Lemma replace_unique old new pre post :
  old <> [] ->
  (forall a b, pre ++ old ++ post = a ++ old ++ b -> a = pre) ->
  replace old new (pre ++ old ++ post) = pre ++ new ++ post.
Proof.
  intros Hne. induction pre as [|c pre IH]; intros H.
  - simpl. rewrite replace_hit by done. f_equal.
    apply replace_absent; [done|]. intros (a & b & ->).
    specialize (H (old ++ a) b). rewrite <- app_assoc in H.
    specialize (H eq_refl). destruct old; done.
  - rewrite <- !app_comm_cons. rewrite replace_miss.
    + f_equal. apply IH. intros a b Hab.
      specialize (H (c :: a) b). rewrite <- !app_comm_cons in H.
      rewrite Hab in H. specialize (H eq_refl). congruence.
    + apply startswith_false. intros [t Ht].
      specialize (H [] t). rewrite <- !app_comm_cons in H. simpl in H.
      specialize (H Ht). done.
Qed.

End PyStrFacts.

(** ** Matches *)

Section ReFacts.

Implicit Types (s l : str) (m : re_match) (p : list item).

Lemma group0_push l m : group0 (push l m) = l ++ group0 m.
Proof. unfold group0, push. simpl. by rewrite <- app_assoc. Qed.

Lemma drop_startswith s l :
  startswith s l = true -> s = l ++ drop (length l) s.
Proof.
  intros [t ->]%startswith_spec. by rewrite drop_app_length.
Qed.

Lemma star_sound c k s m :
  (forall s m, k s = Some m -> exists rest, s = group0 m ++ rest) ->
  star c k s = Some m -> exists rest, s = group0 m ++ rest.
Proof.
  intros Hk. revert m. induction s as [|a s IH]; intros m; simpl.
  - apply Hk.
  - destruct (c a); [|apply Hk].
    destruct (star c k s) as [m'|]; [|apply Hk].
    intros [= <-]. destruct (IH m' eq_refl) as [rest Hrest].
    exists rest. rewrite group0_push. simpl. by f_equal.
Qed.

Lemma plus_sound c k s m :
  (forall s m, k s = Some m -> exists rest, s = group0 m ++ rest) ->
  plus c k s = Some m ->
  m_pre m = [] /\ m_grp m <> [] /\ exists rest, s = group0 m ++ rest.
Proof.
  intros Hk. revert m. induction s as [|a s IH]; intros m; simpl; [done|].
  destruct (c a); [|done].
  destruct (plus c k s) as [m'|].
  - intros [= <-]. destruct (IH m' eq_refl) as (Hpre & _ & rest & Hrest).
    repeat split; [done|]. exists rest.
    unfold group0 in *. simpl. rewrite Hpre in Hrest. simpl in Hrest.
    by f_equal.
  - destruct (k s) as [m'|] eqn:E; [|done]. intros [= <-].
    repeat split; [done|]. destruct (Hk _ _ E) as [rest Hrest].
    exists rest. unfold group0 at 1. simpl. by f_equal.
Qed.

(** A match is a prefix of the text it was found in. *)
Lemma match_here_sound p s m :
  match_here p s = Some m -> exists rest, s = group0 m ++ rest.
Proof.
  revert s m. induction p as [|[l|c|c] p IH]; intros s m; simpl.
  - intros [= <-]. by exists s.
  - destruct (startswith s l) eqn:E; [|done].
    destruct (match_here p (drop (length l) s)) as [m'|] eqn:E'; [|done].
    intros [= <-]. destruct (IH _ _ E') as [rest Hrest]. exists rest.
    rewrite group0_push, <- app_assoc, <- Hrest. by apply drop_startswith.
  - apply star_sound, IH.
  - intros H. by apply plus_sound in H as (_ & _ & ?).
Qed.

Lemma match_here_lit l p s :
  match_here (Lit l :: p) s
  = if startswith s l then push l <$> match_here p (drop (length l) s) else None.
Proof. reflexivity. Qed.

Lemma match_here_star c p : match_here (Star c :: p) = star c (match_here p).
Proof. reflexivity. Qed.

Lemma match_here_group c p : match_here (Group c :: p) = plus c (match_here p).
Proof. reflexivity. Qed.

(** What holds of the group of every match of the rest of the pattern holds
    of the group after a [Star]. *)
Lemma star_group_prop (Pg : str -> Prop) c k s m :
  (forall s m, k s = Some m -> Pg (m_grp m)) ->
  star c k s = Some m -> Pg (m_grp m).
Proof.
  intros Hk. revert m. induction s as [|a s IH]; intros m; simpl.
  - apply Hk.
  - destruct (c a); [|apply Hk].
    destruct (star c k s) as [m'|]; [|apply Hk].
    intros [= <-]. by apply (IH m').
Qed.


(** The group of a pattern that has one is never empty. *)
Lemma match_here_grouped p s m :
  existsb is_group p = true -> match_here p s = Some m -> m_grp m <> [].
Proof.
  revert s m. induction p as [|[l|c|c] p IH]; intros s m; simpl; [done|..].
  - intros Hp. destruct (startswith s l); [|done].
    destruct (match_here p (drop (length l) s)) as [m'|] eqn:E'; [|done].
    intros [= <-]. by apply (IH _ _ Hp E').
  - intros Hp. apply (star_group_prop (fun g => g <> [])). intros s' m'. by apply IH.
  - intros _ H. apply plus_sound in H as (_ & ? & _); [done|].
    apply match_here_sound.
Qed.

Lemma patterns_grouped p : p ∈ patterns -> existsb is_group p = true.
Proof.
  unfold patterns. rewrite !elem_of_cons, elem_of_nil.
  intros [->|[->|[->|[->|[->|[]]]]]]; reflexivity.
Qed.

End ReFacts.

Lemma occurrences_spec (old s : str) (n : nat) :
  n ∈ occurrences old s <-> exists a b, s = a ++ old ++ b /\ length a = n.
Proof.
  revert n. induction s as [|c s IH]; intros n; simpl.
  - rewrite app_nil_r. destruct (startswith [] old) eqn:E.
    + apply startswith_spec in E as [t Ht]. rewrite list_elem_of_singleton.
      split.
      * intros ->. by exists [], t.
      * intros (a & b & H & <-). by destruct a.
    + apply startswith_false in E. rewrite elem_of_nil. split; [done|].
      intros (a & b & H & _). destruct a; [|done]. apply E. by exists b.
  - rewrite elem_of_app, list_elem_of_fmap. split.
    + intros [H|(k & -> & Hk)].
      * destruct (startswith (c :: s) old) eqn:E;
          [|by apply elem_of_nil in H].
        apply list_elem_of_singleton in H as ->.
        apply startswith_spec in E as [t Ht]. by exists [], t.
      * apply IH in Hk as (a & b & -> & <-). by exists (c :: a), b.
    + intros (a & b & H & <-). destruct a as [|c' a].
      * left. simpl in H. rewrite H, startswith_app. by apply list_elem_of_here.
      * right. injection H as -> ->. exists (length a). split; [done|].
        apply IH. by exists a, b.
Qed.

(** ** Calls that may raise, and the loop of [re.sub] *)

Section BindFacts.

Context {E A B : Type}.

Lemma bind_inr (x : E + A) (k : A -> E + B) (b : B) :
  bind x k = inr b <-> exists a, x = inr a /\ k a = inr b.
Proof.
  destruct x as [e|a]; simpl.
  - split; [done | by intros (a & ? & _)].
  - split; [by exists a | by intros (a' & [= <-] & ?)].
Qed.

Lemma bind_inl (x : E + A) (k : A -> E + B) (e : E) :
  bind x k = inl e <-> x = inl e \/ exists a, x = inr a /\ k a = inl e.
Proof.
  destruct x as [e'|a]; simpl.
  - split; [intros [= ->]; by left | by intros [[= ->] | (a & ? & _)]].
  - split; [right; by exists a | by intros [? | (a' & [= <-] & ?)]].
Qed.

End BindFacts.

Section ScanSubFacts.

Context {E : Type}.

Implicit Types (hit : str -> option (nat * (E + str))) (a b s : str).

Lemma scan_sub_skip hit a b : scan_sub hit (length a) (a ++ b) = scan_sub hit 0 b.
Proof. induction a as [|c a IH]; [done | apply IH]. Qed.

Lemma scan_sub_drop hit k s :
  (k <= length s)%nat -> scan_sub hit k s = scan_sub hit 0 (drop k s).
Proof.
  revert s. induction k as [|k IH]; intros s Hk; [by rewrite drop_0|].
  destruct s as [|c s]; [simpl in Hk; lia|]. simpl. apply IH. simpl in Hk. lia.
Qed.

(** At a hit the output of the hit comes first, then the scan of the rest. *)
Lemma scan_sub_hit hit a b out :
  a <> [] -> hit (a ++ b) = Some (length a, out) ->
  scan_sub hit 0 (a ++ b) = do o <- out; do r <- scan_sub hit 0 b; inr (o ++ r).
Proof.
  destruct a as [|c a]; [done|]. intros _ H. simpl in *. rewrite H.
  by rewrite scan_sub_skip.
Qed.

Lemma scan_sub_miss hit c s :
  hit (c :: s) = None ->
  scan_sub hit 0 (c :: s) = do r <- scan_sub hit 0 s; inr (c :: r).
Proof. intros H. simpl. by rewrite H. Qed.

(** Where nothing is hit inside [a], [a] is copied. *)
Lemma scan_sub_copy hit a b :
  (forall a1 a2, a = a1 ++ a2 -> a2 <> [] -> hit (a2 ++ b) = None) ->
  scan_sub hit 0 (a ++ b) = do r <- scan_sub hit 0 b; inr (a ++ r).
Proof.
  induction a as [|c a IH]; intros H.
  - simpl. by destruct (scan_sub hit 0 b).
  - rewrite <- !app_comm_cons, scan_sub_miss by by apply (H [] (c :: a)).
    rewrite IH.
    + by destruct (scan_sub hit 0 b).
    + intros a1 a2 -> Hne. by apply (H (c :: a1) a2).
Qed.


(** An additive measure that every output of a hit keeps is kept by the
    scan, when the scan returns. *)
Lemma scan_sub_measure (mu : str -> nat) hit :
  (forall a b, mu (a ++ b) = (mu a + mu b)%nat) ->
  (forall t n o, hit t = Some (n, inr o) ->
     (n <= length t)%nat /\ mu o = mu (take n t)) ->
  forall s r, scan_sub hit 0 s = inr r -> mu r = mu s.
Proof.
  intros Hadd Hhit.
  assert (mu [] = 0%nat) as Hnil.
  { pose proof (Hadd [] []) as H. simpl in H. lia. }
  assert (forall c s, mu (c :: s) = (mu [c] + mu s)%nat) as Hcons.
  { intros c s. apply (Hadd [c] s). }
  intros s. remember (length s) as n eqn:Hn. revert s Hn.
  induction n as [n IH] using lt_wf_ind. intros s Hn r.
  destruct s as [|c s].
  - cbn [scan_sub]. destruct (hit []) as [[k out]|] eqn:Eh.
    + intros ->. destruct (Hhit _ _ _ Eh) as [_ ->]. by rewrite take_nil.
    + by intros [= <-].
  - cbn [scan_sub]. destruct (hit (c :: s)) as [[k out]|] eqn:Eh.
    + destruct out as [e|o]; [by destruct k|].
      destruct (Hhit _ _ _ Eh) as [Hk Hout]. simpl in Hk. destruct k as [|k].
      * simpl. destruct (scan_sub hit 0 s) as [e|r'] eqn:Er; [done|].
        intros [= <-]. rewrite Hadd, Hout. cbn [take]. rewrite Hnil.
        rewrite (Hcons c r'), (Hcons c s).
        rewrite (IH (length s) ltac:(simpl in Hn; lia) s eq_refl r' Er). done.
      * simpl. rewrite scan_sub_drop by lia.
        destruct (scan_sub hit 0 (drop k s)) as [e|r'] eqn:Er; [done|].
        intros [= <-]. rewrite Hadd, Hout.
        rewrite (IH (length (drop k s))
                   ltac:(rewrite length_drop; simpl in Hn; lia)
                   (drop k s) eq_refl r' Er).
        rewrite <- Hadd. cbn [take]. rewrite <- app_comm_cons.
        by rewrite take_drop.
    + simpl. destruct (scan_sub hit 0 s) as [e|r'] eqn:Er; [done|].
      intros [= <-]. rewrite (Hcons c r'), (Hcons c s).
      by rewrite (IH (length s) ltac:(simpl in Hn; lia) s eq_refl r' Er).
Qed.

End ScanSubFacts.


(** ** The rewriter *)

Section RewriterFacts.

Variable urljoin : str -> str -> exn + str.
Variable base_url proxy_path : str.
Variable referer : option str.
Variable base_scheme base_netloc : str.



(** C6, as amended: the text put in place of a reference is the proxy path,
    [?url=], the resolved absolute URL as it is, and then [&referer=] with
    the referer exactly when the referer is a non-empty string; with no
    referer, or an empty one, nothing follows the absolute URL.  Where the
    resolution raises there is no such text. *)
Theorem proxy_url_form (url : str) :
  (forall r, referer = Some r -> r <> [] ->
     proxy_url urljoin base_url proxy_path referer base_scheme base_netloc url
     = do absolute <- absolute_url urljoin base_url base_scheme base_netloc url;
       inr (proxy_path ++ lit "?url=" ++ absolute ++ lit "&referer=" ++ r))
  /\ (referer = None \/ referer = Some [] ->
      proxy_url urljoin base_url proxy_path referer base_scheme base_netloc url
      = do absolute <- absolute_url urljoin base_url base_scheme base_netloc url;
        inr (proxy_path ++ lit "?url=" ++ absolute))
  /\ (forall m,
       rewrite_url urljoin base_url proxy_path referer base_scheme base_netloc m
       = do proxy <- proxy_url urljoin base_url proxy_path referer base_scheme
                       base_netloc (group1 m);
         inr (replace (group1 m) proxy (group0 m))).
Proof.
  unfold proxy_url. repeat split.
  - intros r -> Hr. destruct r as [|c r]; [done|].
    destruct (absolute_url _ _ _ _ _) as [e|a]; [done|]. simpl.
    by rewrite <- !app_assoc.
  - by intros [-> | ->].
Qed.

(** The rewrite of a match in which the reference occurs once. *)
Lemma rewrite_url_at_occurrence (m : re_match) :
  m_grp m <> [] ->
  occurrences (group1 m) (group0 m) = [length (m_pre m)] ->
  rewrite_url urljoin base_url proxy_path referer base_scheme base_netloc m
  = do proxy <- proxy_url urljoin base_url proxy_path referer base_scheme
                  base_netloc (group1 m);
    inr (m_pre m ++ proxy ++ m_post m).
Proof.
  intros Hne Hocc. unfold rewrite_url.
  destruct (proxy_url _ _ _ _ _ _ _) as [e|proxy]; [done|]. simpl. f_equal.
  unfold group0, group1 in *. apply replace_unique; [done|].
  intros a b Hab.
  assert (length a ∈ occurrences (m_grp m) (m_pre m ++ m_grp m ++ m_post m)) as Hin.
  { apply occurrences_spec. by exists a, b. }
  rewrite Hocc in Hin. apply list_elem_of_singleton in Hin.
  apply (f_equal (take (length a))) in Hab.
  rewrite take_app_length in Hab. rewrite Hin, take_app_length in Hab.
  done.
Qed.

(** C2, as amended: when the extracted reference occurs exactly once in the
    matched text, the rewrite puts the proxied URL in its place and leaves
    the text before and after it in the match as it was. *)
Theorem rewrite_url_single_occurrence (p : list item) (s : str) (m : re_match) :
  p ∈ patterns ->
  match_here p s = Some m ->
  occurrences (group1 m) (group0 m) = [length (m_pre m)] ->
  rewrite_url urljoin base_url proxy_path referer base_scheme base_netloc m
  = do proxy <- proxy_url urljoin base_url proxy_path referer base_scheme
                  base_netloc (group1 m);
    inr (m_pre m ++ proxy ++ m_post m).
Proof.
  intros Hp Hm Hocc. apply rewrite_url_at_occurrence; [|done].
  eapply match_here_grouped; [by apply patterns_grouped | done].
Qed.

End RewriterFacts.

(** ** Header policy *)

Section HeaderFacts.

Variable urlparse : str -> exn + Urllib.SplitResult.

(** The value computed for [Origin]. *)
Lemma outbound_headers_inr (referer : option str)
    (original_headers : option (gmap str str)) (h : gmap str str) :
  outbound_headers urlparse referer original_headers = inr h ->
  exists origin,
    match referer with
    | Some (c :: r) =>
        exists parsed, urlparse (c :: r) = inr parsed
                       /\ origin = Some (Urllib.netloc parsed)
    | _ => origin = None
    end
    /\ h !! lit "Origin" = origin
    /\ h !! lit "User-Agent" = Some user_agent
    /\ h !! lit "Accept" = Some (lit "*/*")
    /\ h !! lit "Accept-Language" = Some (lit "en-US,en;q=0.9")
    /\ h !! lit "Connection" = Some (lit "keep-alive")
    /\ (forall r, referer = Some r -> r <> [] -> h !! lit "Referer" = Some r)
    /\ (forall k, k ∉ overlay_names ->
          h !! k = match original_headers with
                   | Some oh => filter (fun kv => lower kv.1 ∉ request_dropped) oh !! k
                   | None => None
                   end).
Proof.
  unfold outbound_headers. intros H.
  apply bind_inr in H as (origin & Ho & [= <-]). exists origin.
  split.
  { destruct referer as [[|c r]|]; try by injection Ho.
    apply bind_inr in Ho as (parsed & Hp & [= <-]). by exists parsed. }
  rewrite !lookup_omap.
  split; [rewrite lookup_insert_ne by lit_ne; rewrite lookup_insert_eq;
          by destruct origin|].
  split; [rewrite !lookup_insert_ne by lit_ne; by rewrite lookup_insert_eq|].
  split; [rewrite !lookup_insert_ne by lit_ne; by rewrite lookup_insert_eq|].
  split; [rewrite !lookup_insert_ne by lit_ne; by rewrite lookup_insert_eq|].
  split; [by rewrite lookup_insert_eq|].
  split.
  - intros r -> Hr. destruct r as [|c r]; [done|].
    rewrite !lookup_insert_ne by lit_ne. by rewrite lookup_insert_eq.
  - unfold overlay_names. intros k. rewrite !not_elem_of_cons.
    intros (H1 & H2 & H3 & H4 & H5 & H6 & _).
    rewrite lookup_omap, !lookup_insert_ne by done.
    assert (forall g : gmap str (option str),
              match referer with
              | Some (c :: r) => <[lit "Referer" := Some (c :: r)]> g
              | _ => g
              end !! k = g !! k) as ->.
    { intros g. destruct referer as [[|c r]|]; try done.
      by rewrite lookup_insert_ne. }
    destruct original_headers as [oh|]; [|by rewrite lookup_empty].
    case_bool_decide as Eoh.
    + subst oh. by rewrite lookup_empty, map_filter_empty, lookup_empty.
    + rewrite lookup_union, lookup_empty, lookup_fmap.
      by destruct (filter _ oh !! k).
Qed.

(** The headers are built unless [urlparse] raises on a non-empty referer. *)
Lemma outbound_headers_inl (referer : option str)
    (original_headers : option (gmap str str)) (e : exn) :
  outbound_headers urlparse referer original_headers = inl e <->
  exists c r, referer = Some (c :: r) /\ urlparse (c :: r) = inl e.
Proof.
  unfold outbound_headers. rewrite bind_inl. split.
  - intros [H | (origin & _ & H)]; [|done].
    destruct referer as [[|c r]|]; try done.
    apply bind_inl in H as [H | (parsed & _ & H)]; [|done]. by exists c, r.
  - intros (c & r & -> & H). left. by rewrite H.
Qed.

Lemma lower_dropped_not_overlay (k : str) :
  lower k ∈ request_dropped -> k <> lit "Connection" -> k ∉ overlay_names.
Proof.
  intros Hk Hc Ho. unfold overlay_names in Ho. unfold request_dropped in Hk.
  rewrite !elem_of_cons in Ho. rewrite !elem_of_cons in Hk.
  rewrite elem_of_nil in Ho, Hk.
  destruct Ho as [->|[->|[->|[->|[->|[->|[]]]]]]]; try done;
    destruct Hk as [Hk|[Hk|[Hk|[Hk|[]]]]]; vm_compute in Hk; discriminate Hk.
Qed.

(** A name that reads [origin] in lower case and is not [Origin] itself is
    none of the names the function sets, and is not dropped. *)
Lemma origin_variant_kept (k : str) :
  lower k = lit "origin" -> k <> lit "Origin" ->
  (k ∉ overlay_names) /\ (lower k ∉ request_dropped).
Proof.
  intros Hk Hne. split.
  - unfold overlay_names. rewrite !not_elem_of_cons.
    repeat split; try done; try apply not_elem_of_nil;
      intros ->; vm_compute in Hk; discriminate Hk.
  - rewrite Hk. unfold request_dropped. rewrite !not_elem_of_cons.
    repeat split; try (vm_compute; congruence). apply not_elem_of_nil.
Qed.

(** C4 (what the code does): with a non-empty referer the outbound headers
    have [Referer] set to it and [Origin] set to the network location of
    the referer as [urlparse] gives it, without the scheme, and nothing is
    built when [urlparse] raises; with no referer, or an empty one, the key
    [Origin] is absent, while an inbound header whose name is [origin] in
    another case is passed on. *)
Theorem outbound_headers_referer (referer : option str)
    (original_headers : option (gmap str str)) :
  (forall r parsed, referer = Some r -> r <> [] -> urlparse r = inr parsed ->
     exists h, outbound_headers urlparse referer original_headers = inr h
       /\ h !! lit "Referer" = Some r
       /\ h !! lit "Origin" = Some (Urllib.netloc parsed))
  /\ (forall r e, referer = Some r -> r <> [] -> urlparse r = inl e ->
        outbound_headers urlparse referer original_headers = inl e)
  /\ (referer = None \/ referer = Some [] ->
      exists h, outbound_headers urlparse referer original_headers = inr h
        /\ h !! lit "Origin" = None
        /\ forall oh k v, original_headers = Some oh -> oh !! k = Some v ->
             lower k = lit "origin" -> k <> lit "Origin" -> h !! k = Some v).
Proof.
  split; [|split].
  - intros r parsed -> Hr Hp. destruct r as [|c r]; [done|].
    destruct (outbound_headers urlparse (Some (c :: r)) original_headers)
      as [e|h] eqn:Eh.
    { apply outbound_headers_inl in Eh as (c' & r' & [= <- <-] & He).
      congruence. }
    exists h. split; [done|].
    apply outbound_headers_inr in Eh
      as (origin & (parsed' & Hp' & ->) & Ho & _ & _ & _ & _ & Hr' & _).
    split; [by apply Hr'|]. rewrite Ho. congruence.
  - intros r e -> Hr He. destruct r as [|c r]; [done|].
    apply outbound_headers_inl. by exists c, r.
  - intros Href.
    destruct (outbound_headers urlparse referer original_headers)
      as [e|h] eqn:Eh.
    { apply outbound_headers_inl in Eh as (c & r & -> & _).
      by destruct Href. }
    exists h. split; [done|].
    apply outbound_headers_inr in Eh
      as (origin & Horigin & Ho & _ & _ & _ & _ & _ & Hother).
    split.
    + rewrite Ho. by destruct Href as [-> | ->].
    + intros oh k v -> Hv Hk Hne.
      destruct (origin_variant_kept k Hk Hne) as [Hov Hdr].
      rewrite (Hother k Hov). by apply map_lookup_filter_Some.
Qed.

(** X1: the headers are built unless [urlparse] raises on a non-empty
    referer, and then its exception is the outcome; when they are built
    they carry the fixed [User-Agent], [Accept], [Accept-Language] and
    [Connection] values, and no inbound header whose lower-cased name is
    [host], [connection], [content-length] or [content-encoding] is passed
    on (the key [Connection] holds the fixed value). *)
Theorem outbound_headers_fixed (referer : option str)
    (original_headers : option (gmap str str)) :
  (forall e, outbound_headers urlparse referer original_headers = inl e <->
     exists c r, referer = Some (c :: r) /\ urlparse (c :: r) = inl e)
  /\ (forall h, outbound_headers urlparse referer original_headers = inr h ->
        h !! lit "User-Agent" = Some user_agent
        /\ h !! lit "Accept" = Some (lit "*/*")
        /\ h !! lit "Accept-Language" = Some (lit "en-US,en;q=0.9")
        /\ h !! lit "Connection" = Some (lit "keep-alive")
        /\ (forall k, lower k ∈ request_dropped -> k <> lit "Connection" ->
              h !! k = None)).
Proof.
  split; [intros e; apply outbound_headers_inl|].
  intros h Hh. apply outbound_headers_inr in Hh
    as (origin & _ & _ & H1 & H2 & H3 & H4 & _ & Hother).
  split; [done|]. split; [done|]. split; [done|]. split; [done|].
  intros k Hk Hc. rewrite Hother by by apply lower_dropped_not_overlay.
  destruct original_headers as [oh|]; [|done].
  apply map_lookup_filter_None. right. intros v _ Hn. by apply Hn.
Qed.

(** X2: when the headers are built, an inbound header whose lower-cased
    name is not one of the four dropped names, and whose name is not one of
    the keys the function sets itself, is passed on with its value. *)
Theorem outbound_headers_forwarded (referer : option str)
    (oh h : gmap str str) (k v : str) :
  outbound_headers urlparse referer (Some oh) = inr h ->
  oh !! k = Some v -> lower k ∉ request_dropped -> k ∉ overlay_names ->
  h !! k = Some v.
Proof.
  intros Hh Hv Hk Ho. apply outbound_headers_inr in Hh
    as (origin & _ & _ & _ & _ & _ & _ & _ & Hother).
  rewrite Hother by done. by apply map_lookup_filter_Some.
Qed.

End HeaderFacts.

(** ** Response headers *)

Lemma lower_dropped_not_cors (k : str) :
  lower k ∈ response_dropped -> k ∉ cors_names.
Proof.
  intros Hk Hc. unfold cors_names in Hc. unfold response_dropped in Hk.
  rewrite !elem_of_cons, elem_of_nil in Hc, Hk.
  destruct Hc as [->|[->|[->|[]]]];
    destruct Hk as [Hk|[Hk|[Hk|[]]]]; vm_compute in Hk; discriminate Hk.
Qed.

Lemma lower_not_cors (k : str) : lower k = k -> k ∉ cors_names.
Proof.
  intros Hk Hc. unfold cors_names in Hc.
  rewrite !elem_of_cons, elem_of_nil in Hc.
  destruct Hc as [->|[->|[->|[]]]]; vm_compute in Hk; discriminate Hk.
Qed.

Lemma client_headers_other (upstream : gmap str str) (k : str) :
  k ∉ cors_names ->
  client_headers upstream !! k
  = filter (fun kv => lower kv.1 ∉ response_dropped) upstream !! k.
Proof.
  unfold cors_names, client_headers. rewrite !not_elem_of_cons.
  intros (H1 & H2 & H3 & _). by rewrite !lookup_insert_ne.
Qed.

(** The dictionary built from the upstream headers: the three CORS headers
    with their fixed values, no header whose lower-cased name is dropped,
    and every other upstream header as it is. *)
Lemma client_headers_spec (upstream : gmap str str) :
  client_headers upstream !! lit "Access-Control-Allow-Origin" = Some (lit "*")
  /\ client_headers upstream !! lit "Access-Control-Allow-Methods"
     = Some (lit "GET, OPTIONS")
  /\ client_headers upstream !! lit "Access-Control-Allow-Headers" = Some (lit "*")
  /\ (forall k, lower k ∈ response_dropped -> client_headers upstream !! k = None)
  /\ (forall k v, upstream !! k = Some v -> lower k = k ->
        lower k ∉ response_dropped -> client_headers upstream !! k = Some v)
  /\ (forall k, k ∉ cors_names -> lower k ∉ response_dropped ->
        client_headers upstream !! k = upstream !! k).
Proof.
  repeat split.
  - unfold client_headers. rewrite !lookup_insert_ne by lit_ne.
    by rewrite lookup_insert_eq.
  - unfold client_headers. rewrite lookup_insert_ne by lit_ne.
    by rewrite lookup_insert_eq.
  - unfold client_headers. by rewrite lookup_insert_eq.
  - intros k Hk. rewrite client_headers_other by by apply lower_dropped_not_cors.
    apply map_lookup_filter_None. right. intros v _ Hn. by apply Hn.
  - intros k v Hv Hlow Hk. rewrite client_headers_other by by apply lower_not_cors.
    by apply map_lookup_filter_Some.
  - intros k Hc Hk. rewrite client_headers_other by done.
    destruct (upstream !! k) as [v|] eqn:Eu.
    + by apply map_lookup_filter_Some.
    + apply map_lookup_filter_None. by left.
Qed.

(** ** The classifier *)

(** C3 (what the code does): the response is treated as a playlist exactly
    when the lower-cased content type contains
    [application/vnd.apple.mpegurl] or [application/x-mpegurl], or the
    request URL as a whole, query string included, ends with [.m3u8]; the
    path of the URL is not looked at. *)
Theorem is_m3u8_iff (content_type url : str) :
  is_m3u8 content_type url = true <->
  (exists a b, lower content_type = a ++ lit "application/vnd.apple.mpegurl" ++ b)
  \/ (exists a b, lower content_type = a ++ lit "application/x-mpegurl" ++ b)
  \/ (exists a, url = a ++ lit ".m3u8").
Proof.
  unfold is_m3u8. rewrite !orb_true_iff, !contains_spec, endswith_spec. tauto.
Qed.

(** ** The fetch and the handler *)

Section HandlerFacts.

Variable urlparse : str -> exn + Urllib.SplitResult.
Variable urljoin : str -> str -> exn + str.
Variable client_request :
  str -> str -> gmap str str -> option str -> exn + UpstreamResponse.
Variable exn_str : exn -> str.

Lemma fetch_get (url : str) (referer : option str)
    (original_headers : option (gmap str str)) :
  fetch_with_referer urlparse client_request url referer original_headers
    (lit "GET") None
  = do headers <- outbound_headers urlparse referer original_headers;
    match client_request (lit "GET") url headers None with
    | inr response => inr response
    | inl (RequestError e) =>
        inl (HTTPException 502 (lit "Error proxying request: " ++ e))
    | inl e => inl e
    end.
Proof. reflexivity. Qed.

(** The response of the handler, when it answers. *)
Lemma proxy_hls_inr (request : Request) (url : str) (referer : option str)
    (r : Response) :
  proxy_hls urlparse urljoin client_request exn_str request url referer = inr r
  <-> exists h response,
        outbound_headers urlparse referer (Some (req_headers request)) = inr h
        /\ client_request (lit "GET") url h None = inr response
        /\ resp_headers r = client_headers (headers response)
        /\ resp_status r = status_code response
        /\ if is_m3u8 (default [] (headers response !! lit "content-type")) url
           then exists content,
                  rewrite_m3u8_content urlparse urljoin (base_of url)
                    (before_first "?" (req_url request)) referer (text response)
                  = inr content
                  /\ resp_body r = Content content
           else resp_body r = Streaming (body_chunks response).
Proof.
  unfold proxy_hls, proxy_hls_try. rewrite fetch_get. split.
  - destruct (outbound_headers _ _ _) as [e|h]; [done|]. cbn [bind].
    destruct (client_request _ _ h _) as [[]|response] eqn:Ec; try done. cbn [bind].
    intros Hr. exists h, response. split; [done|]. split; [done|].
    destruct (is_m3u8 _ url).
    + destruct (rewrite_m3u8_content _ _ _ _ _ _) as [e|content]; [done|].
      cbn [bind] in Hr. injection Hr as <-. repeat split. by exists content.
    + injection Hr as <-. by repeat split.
  - intros (h & response & -> & Hc & Hh & Hs & Hb). cbn [bind]. rewrite Hc. cbn [bind].
    destruct r as [body hs st]. cbn [resp_body resp_headers resp_status] in *. subst hs st.
    destruct (is_m3u8 _ url).
    + destruct Hb as (content & -> & ->). done.
    + by subst body.
Qed.

(** C8: whenever the handler answers, in the playlist branch and in the
    streaming branch alike, the headers of its response carry the three
    CORS headers with their fixed values; a header whose lower-cased name is
    [transfer-encoding], [content-encoding] or [content-length] is absent;
    every other header of the upstream response, named in lower case as the
    HTTP client gives it, is present with its upstream value; and apart
    from the three CORS names nothing else is added or changed. *)
Theorem proxy_hls_headers (request : Request) (url : str)
    (referer : option str) (r : Response) :
  proxy_hls urlparse urljoin client_request exn_str request url referer = inr r ->
  exists h response,
    outbound_headers urlparse referer (Some (req_headers request)) = inr h
    /\ client_request (lit "GET") url h None = inr response
    /\ (is_m3u8 (default [] (headers response !! lit "content-type")) url = true ->
        exists content, resp_body r = Content content)
    /\ (is_m3u8 (default [] (headers response !! lit "content-type")) url = false ->
        resp_body r = Streaming (body_chunks response))
    /\ resp_headers r !! lit "Access-Control-Allow-Origin" = Some (lit "*")
    /\ resp_headers r !! lit "Access-Control-Allow-Methods"
       = Some (lit "GET, OPTIONS")
    /\ resp_headers r !! lit "Access-Control-Allow-Headers" = Some (lit "*")
    /\ (forall k, lower k ∈ response_dropped -> resp_headers r !! k = None)
    /\ (forall k v, headers response !! k = Some v -> lower k = k ->
          lower k ∉ response_dropped -> resp_headers r !! k = Some v)
    /\ (forall k, k ∉ cors_names -> lower k ∉ response_dropped ->
          resp_headers r !! k = headers response !! k).
Proof.
  intros Hr. apply proxy_hls_inr in Hr as (h & response & Hh & Hc & -> & _ & Hb).
  exists h, response. split; [done|]. split; [done|].
  split; [intros Hm; rewrite Hm in Hb; destruct Hb as (content & _ & ->);
          by exists content|].
  split; [intros Hm; by rewrite Hm in Hb|].
  apply client_headers_spec.
Qed.

(** C10, as amended: when the fetch returns a response, the handler answers
    in the streaming branch with the upstream chunks and the upstream
    status code; in the playlist branch it answers with the rewritten
    playlist and the upstream status code when the rewriter returns, and
    raises the 500 exception when the rewriter raises; whenever it answers,
    the status code is the upstream one, whatever it is. *)
Theorem proxy_hls_status (request : Request) (url : str)
    (referer : option str) (h : gmap str str) (response : UpstreamResponse) :
  outbound_headers urlparse referer (Some (req_headers request)) = inr h ->
  client_request (lit "GET") url h None = inr response ->
  (is_m3u8 (default [] (headers response !! lit "content-type")) url = false ->
     proxy_hls urlparse urljoin client_request exn_str request url referer
     = inr {| resp_body := Streaming (body_chunks response);
              resp_headers := client_headers (headers response);
              resp_status := status_code response |})
  /\ (is_m3u8 (default [] (headers response !! lit "content-type")) url = true ->
      forall content,
        rewrite_m3u8_content urlparse urljoin (base_of url)
          (before_first "?" (req_url request)) referer (text response)
        = inr content ->
        proxy_hls urlparse urljoin client_request exn_str request url referer
        = inr {| resp_body := Content content;
                 resp_headers := client_headers (headers response);
                 resp_status := status_code response |})
  /\ (is_m3u8 (default [] (headers response !! lit "content-type")) url = true ->
      forall e,
        rewrite_m3u8_content urlparse urljoin (base_of url)
          (before_first "?" (req_url request)) referer (text response)
        = inl e ->
        proxy_hls urlparse urljoin client_request exn_str request url referer
        = inl (HTTPException 500 (lit "Proxy error: " ++ exn_str e)))
  /\ (forall r,
        proxy_hls urlparse urljoin client_request exn_str request url referer
        = inr r ->
        resp_status r = status_code response).
Proof.
  intros Hh Hc. split; [|split; [|split]].
  - intros Hm. unfold proxy_hls, proxy_hls_try.
    rewrite fetch_get, Hh. cbn [bind]. rewrite Hc. cbn [bind]. by rewrite Hm.
  - intros Hm content Hw. unfold proxy_hls, proxy_hls_try.
    rewrite fetch_get, Hh. cbn [bind]. rewrite Hc. cbn [bind]. by rewrite Hm, Hw.
  - intros Hm e Hw. unfold proxy_hls, proxy_hls_try.
    rewrite fetch_get, Hh. cbn [bind]. rewrite Hc. cbn [bind]. by rewrite Hm, Hw.
  - intros r Hr. apply proxy_hls_inr in Hr as (h' & response' & Hh' & Hc' & _ & -> & _).
    congruence.
Qed.

(** C1 (what the code does): when the client raises a request error,
    [fetch_with_referer] raises the 502 exception, and the handler's
    [except Exception] turns it into a 500 exception. *)
Theorem proxy_hls_unreachable (request : Request) (url : str)
    (referer : option str) (h : gmap str str) (e : str) :
  outbound_headers urlparse referer (Some (req_headers request)) = inr h ->
  client_request (lit "GET") url h None = inl (RequestError e) ->
  fetch_with_referer urlparse client_request url referer
    (Some (req_headers request)) (lit "GET") None
  = inl (HTTPException 502 (lit "Error proxying request: " ++ e))
  /\ proxy_hls urlparse urljoin client_request exn_str request url referer
     = inl (HTTPException 500
              (lit "Proxy error: "
               ++ exn_str (HTTPException 502 (lit "Error proxying request: " ++ e)))).
Proof.
  intros Hh Hfetch. unfold proxy_hls, proxy_hls_try.
  rewrite fetch_get, Hh. cbn [bind]. rewrite Hfetch. by split.
Qed.

(** X3: when the headers cannot be built, [fetch_with_referer] raises what
    [urlparse] raised, whatever the client would do; when they are built, a
    GET returns a response exactly when the client returns it, a request
    error of the client becomes the 502 exception whatever the method, so
    that no request error comes out, and any other exception of the client
    comes out unchanged. *)
Theorem fetch_with_referer_outcome (url : str) (referer : option str)
    (original_headers : option (gmap str str)) :
  (forall e method data,
     outbound_headers urlparse referer original_headers = inl e ->
     fetch_with_referer urlparse client_request url referer original_headers
       method data = inl e)
  /\ (forall h,
        outbound_headers urlparse referer original_headers = inr h ->
        (forall method data msg,
           fetch_with_referer urlparse client_request url referer
             original_headers method data <> inl (RequestError msg))
        /\ (forall response,
              fetch_with_referer urlparse client_request url referer
                original_headers (lit "GET") None = inr response
              <-> client_request (lit "GET") url h None = inr response)
        /\ (forall msg,
              client_request (lit "GET") url h None = inl (RequestError msg) ->
              fetch_with_referer urlparse client_request url referer
                original_headers (lit "GET") None
              = inl (HTTPException 502 (lit "Error proxying request: " ++ msg)))
        /\ (forall e,
              client_request (lit "GET") url h None = inl e ->
              (forall msg, e <> RequestError msg) ->
              fetch_with_referer urlparse client_request url referer
                original_headers (lit "GET") None = inl e)).
Proof.
  split.
  - intros e method data He. unfold fetch_with_referer. by rewrite He.
  - intros h Hh. split; [|split; [|split]].
    + intros method data msg. unfold fetch_with_referer. rewrite Hh. cbn [bind].
      repeat case_bool_decide;
        by destruct (client_request _ _ _ _) as [[]|].
    + intros response. rewrite fetch_get, Hh. cbn [bind].
      destruct (client_request _ _ _ _) as [[]|]; split; congruence.
    + intros msg He. by rewrite fetch_get, Hh; cbn [bind]; rewrite He.
    + intros e He Hne. rewrite fetch_get, Hh. cbn [bind]. rewrite He.
      destruct e; try done. by destruct (Hne msg).
Qed.

(** X4: the handler fails only with the 500 exception; it answers exactly
    when the headers are built, the client returns a response for the GET
    request and, for a playlist, the rewriter returns; and it fails when
    [urlparse] raises on the referer or the rewriter raises. *)
Theorem proxy_hls_outcome (request : Request) (url : str) (referer : option str) :
  (forall e,
     proxy_hls urlparse urljoin client_request exn_str request url referer = inl e ->
     exists detail, e = HTTPException 500 detail)
  /\ ((exists r,
         proxy_hls urlparse urljoin client_request exn_str request url referer = inr r)
      <-> exists h response,
            outbound_headers urlparse referer (Some (req_headers request)) = inr h
            /\ client_request (lit "GET") url h None = inr response
            /\ (is_m3u8 (default [] (headers response !! lit "content-type")) url
                = true ->
                exists content,
                  rewrite_m3u8_content urlparse urljoin (base_of url)
                    (before_first "?" (req_url request)) referer (text response)
                  = inr content))
  /\ (forall e,
        outbound_headers urlparse referer (Some (req_headers request)) = inl e ->
        proxy_hls urlparse urljoin client_request exn_str request url referer
        = inl (HTTPException 500 (lit "Proxy error: " ++ exn_str e))).
Proof.
  split; [|split].
  - unfold proxy_hls. intros e.
    destruct (proxy_hls_try _ _ _ _ _ _) as [e0|r]; [|done].
    intros [= <-]. by eexists.
  - split.
    + intros [r Hr]. apply proxy_hls_inr in Hr as (h & response & Hh & Hc & _ & _ & Hb).
      exists h, response. split; [done|]. split; [done|]. intros Hm.
      rewrite Hm in Hb. destruct Hb as (content & Hw & _). by exists content.
    + intros (h & response & Hh & Hc & Hb).
      destruct (is_m3u8 (default [] (headers response !! lit "content-type")) url)
        eqn:Hm.
      * destruct (Hb eq_refl) as [content Hw].
        exists {| resp_body := Content content;
                  resp_headers := client_headers (headers response);
                  resp_status := status_code response |}.
        apply proxy_hls_inr. exists h, response. rewrite Hm.
        repeat split; try done. by exists content.
      * exists {| resp_body := Streaming (body_chunks response);
                  resp_headers := client_headers (headers response);
                  resp_status := status_code response |}.
        apply proxy_hls_inr. exists h, response. rewrite Hm. by repeat split.
  - intros e He. unfold proxy_hls, proxy_hls_try. rewrite fetch_get, He. done.
Qed.

(** X5: whenever the GET handler answers, each of the three CORS headers of
    its response is present in the preflight response too, with the same
    value. *)
Theorem options_handler_cors (request : Request) (url : str)
    (referer : option str) (r : Response) (k : str) :
  proxy_hls urlparse urljoin client_request exn_str request url referer = inr r ->
  k ∈ cors_names ->
  is_Some (resp_headers r !! k)
  /\ resp_headers r !! k = resp_headers options_handler !! k.
Proof.
  intros Hr. apply proxy_hls_inr in Hr as (h & response & _ & _ & -> & _ & _).
  unfold cors_names. rewrite !elem_of_cons, elem_of_nil.
  unfold client_headers.
  intros [->|[->|[->|[]]]]; (split; [|reflexivity || idtac]);
    repeat (rewrite lookup_insert_ne by lit_ne); rewrite ?lookup_insert_eq;
    try by eexists.
  all: unfold options_handler; cbn [resp_headers];
    repeat (rewrite lookup_insert_ne by lit_ne); by rewrite lookup_insert_eq.
Qed.

End HandlerFacts.

(** ** Next-line patterns *)

Section NextLineFacts.

Context {Err : Type}.

Variable directive : str.
Hypothesis directive_nl : nl ∉ directive.
Hypothesis directive_ne : directive <> [].

Implicit Types (t u d : str) (f : re_match -> Err + str).

Lemma group_stops k t : stops t -> plus not_nl_hash k t = None.
Proof. destruct t as [|c t]; simpl; [done|]. by intros ->. Qed.





Lemma startswith_ext l u t :
  nl ∉ l -> startswith (u ++ nl :: t) l = startswith u l.
Proof.
  revert u. induction l as [|a l IH]; intros u; [done|].
  rewrite not_elem_of_cons. intros [Ha Hl]. destruct u as [|b u].
  - cbn [app]. rewrite startswith_cons.
    assert (Ascii.eqb a nl = false) as -> by (apply Ascii.eqb_neq; congruence).
    done.
  - rewrite <- app_comm_cons, !startswith_cons.
    destruct (Ascii.eqb a b); [by apply IH | done].
Qed.













End NextLineFacts.

(** ** A directive line without a reference *)

Section HashLineFacts.

Context {Err : Type}.

(** The directive of the pattern: [#] and a text without newline and [#]. *)
Variable l : str.
Hypothesis l_nl : nl ∉ l.
Hypothesis l_hash : hash ∉ l.

Implicit Types (f : re_match -> Err + str) (a d r t u pre post : str).









End HashLineFacts.

Section NextLineRewrite.

Variable urljoin : str -> str -> exn + str.
Variable base_url proxy_path : str.
Variable referer : option str.
Variable base_scheme base_netloc : str.




End NextLineRewrite.

(** ** Quoted-attribute patterns *)

Section HeadFacts.

Context {Err : Type}.

Implicit Types (f : re_match -> Err + str) (h x b s t : str) (p : list item).


Lemma sub_head_absent h p f s :
  contains h s = false -> sub (Lit h :: p) f s = inr s.
Proof.
  intros Hc.
  assert (forall a1 a2, s = a1 ++ a2 -> match_here (Lit h :: p) a2 = None) as Hnone.
  { intros a1 a2 ->. rewrite match_here_lit.
    destruct (startswith a2 h) eqn:Ea; [|done].
    apply startswith_spec in Ea as [t ->].
    assert (contains h (a1 ++ h ++ t) = true) as Hc'
      by (apply contains_spec; by exists a1, t).
    congruence. }
  unfold sub. rewrite <- (app_nil_r s) at 1. rewrite scan_sub_copy.
  - cbn [scan_sub]. rewrite (Hnone s []) by by rewrite app_nil_r.
    cbn [bind]. by rewrite app_nil_r.
  - intros a1 a2 -> _. by rewrite app_nil_r, (Hnone a1 a2).
Qed.


End HeadFacts.



Section DirectiveWithoutReference.

Variable urlparse : str -> exn + Urllib.SplitResult.
Variable urljoin : str -> str -> exn + str.
Variable base_url proxy_path : str.
Variable referer : option str.



End DirectiveWithoutReference.


(** * Further properties *)

(** ** Base URL and proxy path *)

Lemma before_last_None (c : ascii) (s : str) :
  before_last c s = None <-> c ∉ s.
Proof.
  induction s as [|a s IH]; simpl.
  - split; [intros _; apply not_elem_of_nil | done].
  - rewrite not_elem_of_cons. destruct (before_last c s) as [r|].
    + split; [done|]. intros [_ H]. by apply IH in H.
    + destruct (Ascii.eqb_spec a c) as [->|Hne].
      * split; [done|]. by intros [? _].
      * split; [|done]. intros _. split; [congruence|]. by apply IH.
Qed.

Lemma before_last_Some (c : ascii) (s d : str) :
  before_last c s = Some d -> exists tail, s = d ++ c :: tail /\ c ∉ tail.
Proof.
  revert d. induction s as [|a s IH]; intros d; simpl; [done|].
  destruct (before_last c s) as [r|] eqn:E.
  - intros [= <-]. destruct (IH r eq_refl) as (tail & -> & Ht). by exists tail.
  - destruct (Ascii.eqb_spec a c) as [->|]; [|done]. intros [= <-].
    exists s. split; [done|]. by apply before_last_None.
Qed.

(** X6: when the URL holds a [/], the base URL ends with [/] and the URL is
    the base URL followed by a file part without [/]; when it holds none,
    the base URL is the URL itself. *)
Theorem base_of_directory (url : str) :
  ("/" ∈ url ->
     exists dir file, base_of url = dir ++ lit "/"
                      /\ url = base_of url ++ file /\ "/" ∉ file)
  /\ ("/" ∉ url -> base_of url = url).
Proof.
  unfold base_of. split.
  - intros Hin. destruct (before_last "/" url) as [d|] eqn:E.
    + apply before_last_Some in E as (tail & -> & Ht).
      exists d, tail. by rewrite <- app_assoc.
    + apply before_last_None in E. done.
  - intros Hn. apply before_last_None in Hn. by rewrite Hn.
Qed.

(** X7: the proxy path, the text of the request URL before its first [?],
    holds no [?], is the whole URL when that holds no [?], and otherwise is
    followed in the URL by [?] and the query. *)
Theorem proxy_path_of_request (request : Request) :
  ("?" ∉ before_first "?" (req_url request))
  /\ ("?" ∉ req_url request ->
      before_first "?" (req_url request) = req_url request)
  /\ ("?" ∈ req_url request ->
      exists q, req_url request = before_first "?" (req_url request) ++ "?" :: q).
Proof.
  generalize (req_url request) as s.
  induction s as [|a s (IH1 & IH2 & IH3)]; simpl.
  - repeat split; [apply not_elem_of_nil | by intros ?%elem_of_nil].
  - destruct (Ascii.eqb_spec a "?") as [->|Hne].
    + repeat split; [apply not_elem_of_nil | |].
      * rewrite not_elem_of_cons. by intros [? _].
      * intros _. by exists s.
    + repeat split.
      * rewrite not_elem_of_cons. split; [congruence | done].
      * rewrite not_elem_of_cons. intros [_ H]. by rewrite IH2.
      * rewrite elem_of_cons. intros [E|H]; [congruence|].
        destruct (IH3 H) as [rest Hrest]. exists rest. simpl. congruence.
Qed.

(** ** Scans and matches *)

Section ScanFacts.

Implicit Types (s t : str).

Lemma scan_drop hit k s :
  (k <= length s)%nat -> scan hit k s = scan hit 0 (drop k s).
Proof.
  revert s. induction k as [|k IH]; intros s Hk; [by rewrite drop_0|].
  destruct s as [|c s]; simpl in *; [lia|]. apply IH. lia.
Qed.

(** A quantity that adds up over concatenation and that every hit keeps is
    kept by the scan. *)
Lemma scan_measure (mu : str -> nat) hit :
  (forall a b, mu (a ++ b) = (mu a + mu b)%nat) ->
  (forall t n out, hit t = Some (n, out) ->
     (n <= length t)%nat /\ mu out = mu (take n t)) ->
  forall s, mu (scan hit 0 s) = mu s.
Proof.
  intros Hadd Hhit.
  assert (mu [] = 0%nat) as Hnil.
  { pose proof (Hadd [] []) as H. simpl in H. lia. }
  assert (forall c s, mu (c :: s) = (mu [c] + mu s)%nat) as Hcons.
  { intros c s. apply (Hadd [c] s). }
  intros s. remember (length s) as n eqn:Hn. revert s Hn.
  induction n as [n IH] using lt_wf_ind. intros s Hn.
  destruct s as [|c s].
  - cbn [scan]. destruct (hit []) as [[k out]|] eqn:E; [|done].
    destruct (Hhit _ _ _ E) as [_ ->]. by rewrite take_nil.
  - cbn [scan]. destruct (hit (c :: s)) as [[k out]|] eqn:E.
    + destruct (Hhit _ _ _ E) as [Hk Hout]. simpl in Hk. destruct k as [|k].
      * rewrite Hadd, Hout. cbn [take]. rewrite Hnil.
        rewrite (Hcons c (scan hit 0 s)), (Hcons c s).
        rewrite (IH (length s)); [done | simpl in Hn; lia | done].
      * rewrite scan_drop by lia. rewrite Hadd, Hout.
        rewrite (IH (length (drop k s)) ltac:(rewrite length_drop; simpl in Hn; lia)
                   (drop k s) eq_refl).
        rewrite <- Hadd. cbn [take]. rewrite <- app_comm_cons.
        by rewrite take_drop.
    + rewrite (Hcons c (scan hit 0 s)), (Hcons c s).
      rewrite (IH (length s)); [done | simpl in Hn; lia | done].
Qed.

Lemma newlines_app s t : newlines (s ++ t) = (newlines s + newlines t)%nat.
Proof. induction s as [|c s IH]; simpl; [done|]. rewrite IH. lia. Qed.

Lemma newlines_0 s : newlines s = 0%nat <-> nl ∉ s.
Proof.
  induction s as [|c s IH]; simpl.
  - split; [intros _; apply not_elem_of_nil | done].
  - rewrite not_elem_of_cons, <- IH.
    destruct (Ascii.eqb_spec c nl) as [->|Hne].
    + split; [lia | by intros [? _]].
    + split; [intros H; split; [congruence | lia] | intros [_ H]; lia].
Qed.

Lemma replace_newlines old new s :
  newlines old = newlines new ->
  newlines (replace old new s) = newlines s.
Proof.
  intros Heq. unfold replace. apply scan_measure; [apply newlines_app|].
  intros t n out. destruct (startswith t old) eqn:E; [|done].
  intros [= <- <-]. apply startswith_spec in E as [t' ->].
  rewrite length_app, take_app_length. split; [lia | done].
Qed.

End ScanFacts.

Section MoreReFacts.

Implicit Types (s t u l : str) (m : re_match).

Lemma plus_forall c k s m :
  plus c k s = Some m -> Forall (fun a => c a = true) (m_grp m).
Proof.
  revert m. induction s as [|a s IH]; intros m; simpl; [done|].
  destruct (c a) eqn:E; [|done].
  destruct (plus c k s) as [m'|].
  - intros [= <-]. simpl. constructor; [done | by apply IH].
  - destruct (k s) as [m'|]; [|done]. intros [= <-]. simpl. by repeat constructor.
Qed.

Lemma push_nil m : push [] m = m.
Proof. by destruct m. Qed.

Lemma push_push l1 l2 m : push l1 (push l2 m) = push (l1 ++ l2) m.
Proof. unfold push. simpl. by rewrite app_assoc. Qed.

(** The greedy star runs over a prefix of its class when the rest of the
    pattern matches after it. *)
Lemma star_prefix c k u t m :
  Forall (fun a => c a = true) u ->
  star c k t = Some m -> star c k (u ++ t) = Some (push u m).
Proof.
  intros Hu Ht. induction Hu as [|a u Ha Hu IH]; simpl.
  - by rewrite push_nil.
  - rewrite Ha, IH. by rewrite push_push.
Qed.

(** The star fails when the rest of the pattern fails at every position it
    can reach. *)
Lemma star_none c k t :
  (forall t1 t2, t = t1 ++ t2 -> Forall (fun a => c a = true) t1 -> k t2 = None) ->
  star c k t = None.
Proof.
  induction t as [|a t IH]; intros H; simpl.
  - by apply (H [] []).
  - destruct (c a) eqn:E; [|by apply (H [] (a :: t))].
    rewrite IH; [by apply (H [] (a :: t))|].
    intros t1 t2 -> Ht1. apply (H (a :: t1) t2); [done | by constructor].
Qed.

(** The group takes a run of its class that is followed by a character
    outside the class, or by the end of the text. *)
Lemma plus_run c k u t e :
  u <> [] -> Forall (fun a => c a = true) u ->
  plus c k t = None -> k t = Some e ->
  plus c k (u ++ t) = Some {| m_pre := []; m_grp := u; m_post := group0 e |}.
Proof.
  intros Hne Hu Hp Hk. induction Hu as [|a u Ha Hu IH]; [done|].
  simpl. rewrite Ha. destruct u as [|b u].
  - simpl. by rewrite Hp, Hk.
  - by rewrite IH.
Qed.

End MoreReFacts.

Section EntryFacts.

Implicit Types (s t u l attrs uri rest : str) (m : re_match).

Lemma not_nl_forall s : nl ∉ s -> Forall (fun a => not_nl a = true) s.
Proof.
  induction s as [|a s IH]; [constructor|]. rewrite not_elem_of_cons.
  intros [Ha Hs]. constructor; [|by apply IH].
  unfold not_nl. apply negb_true_iff, Ascii.eqb_neq. congruence.
Qed.

Lemma not_nl_hash_no_nl s : Forall (fun a => not_nl_hash a = true) s -> nl ∉ s.
Proof.
  induction 1 as [|a s Ha Hs IH]; [apply not_elem_of_nil|].
  rewrite not_elem_of_cons. split; [|done].
  unfold not_nl_hash in Ha. apply andb_true_iff in Ha as [Ha _].
  apply negb_true_iff, Ascii.eqb_neq in Ha. congruence.
Qed.

Lemma not_dquote_forall s :
  dquote ∉ s -> Forall (fun a => not_dquote a = true) s.
Proof.
  induction s as [|a s IH]; [constructor|]. rewrite not_elem_of_cons.
  intros [Ha Hs]. constructor; [|by apply IH].
  unfold not_dquote. apply negb_true_iff, Ascii.eqb_neq. congruence.
Qed.

(** The match of a next-line pattern at a directive whose next line starts
    with a reference: the group is the run of the next line up to its end
    or its first [#]. *)
Lemma next_line_match directive attrs uri rest :
  nl ∉ attrs -> uri <> [] -> Forall (fun a => not_nl_hash a = true) uri ->
  stops rest ->
  match_here (next_line_pattern directive)
    (directive ++ attrs ++ nl :: uri ++ rest)
  = Some {| m_pre := directive ++ attrs ++ [nl]; m_grp := uri; m_post := [] |}.
Proof.
  intros Hattrs Hne Huri Hrest. unfold next_line_pattern.
  rewrite match_here_lit, startswith_app, drop_app_length, match_here_star.
  assert (match_here [Lit [nl]; Group not_nl_hash] (nl :: uri ++ rest)
          = Some {| m_pre := [nl]; m_grp := uri; m_post := [] |}) as HQ.
  { rewrite match_here_lit, startswith_cons, Ascii.eqb_refl.
    change (drop (length [nl]) (nl :: uri ++ rest)) with (uri ++ rest).
    cbn [startswith]. rewrite match_here_group.
    rewrite (plus_run _ _ uri rest {| m_pre := []; m_grp := []; m_post := [] |});
      [done | done | done | by apply group_stops | done]. }
  assert (star not_nl (match_here [Lit [nl]; Group not_nl_hash])
            (nl :: uri ++ rest)
          = Some {| m_pre := [nl]; m_grp := uri; m_post := [] |}) as Hstar.
  { cbn [star]. change (not_nl nl) with false. exact HQ. }
  rewrite (star_prefix _ _ attrs _ _ (not_nl_forall _ Hattrs) Hstar).
  cbn. unfold push. by cbn.
Qed.

Lemma map_match u rest :
  u <> [] -> dquote ∉ u ->
  match_here pat_map ((lit "#EXT-X-MAP:URI=" ++ [dquote]) ++ u ++ dquote :: rest)
  = Some {| m_pre := lit "#EXT-X-MAP:URI=" ++ [dquote]; m_grp := u;
            m_post := [dquote] |}.
Proof.
  intros Hne Hu. unfold pat_map.
  rewrite match_here_lit, startswith_app, drop_app_length, match_here_group.
  rewrite (plus_run _ _ u (dquote :: rest)
             {| m_pre := [dquote]; m_grp := []; m_post := [] |});
    [| done | by apply not_dquote_forall | done | done].
  cbn. unfold push. cbn. by rewrite ?app_nil_r.
Qed.

End EntryFacts.

Section AttributeEntry.

Lemma uri_attr_match (u rest : str) :
  u <> [] -> dquote ∉ u ->
  match_here [Lit uri_attr; Group not_dquote; Lit [dquote]]
    (uri_attr ++ u ++ dquote :: rest)
  = Some {| m_pre := uri_attr; m_grp := u; m_post := [dquote] |}.
Proof.
  intros Hne Hu.
  rewrite match_here_lit, startswith_app, drop_app_length, match_here_group.
  rewrite (plus_run _ _ u (dquote :: rest)
             {| m_pre := [dquote]; m_grp := []; m_post := [] |});
    [| done | by apply not_dquote_forall | done | done].
  cbn. unfold push. cbn. by rewrite ?app_nil_r.
Qed.

Lemma uri_attr_needed (t : str) :
  startswith t uri_attr = false ->
  match_here [Lit uri_attr; Group not_dquote; Lit [dquote]] t = None.
Proof. intros H. by rewrite match_here_lit, H. Qed.

Lemma nl_free_forall (s : str) : Forall (fun a => not_nl a = true) s -> nl ∉ s.
Proof.
  induction 1 as [|a s Ha Hs IH]; [apply not_elem_of_nil|].
  rewrite not_elem_of_cons. split; [|done].
  unfold not_nl in Ha. apply negb_true_iff, Ascii.eqb_neq in Ha. congruence.
Qed.

(** No later attribute on the line: the rest of the pattern fails at every
    position the star can reach after the first character of [URI=]. *)
Lemma uri_attr_last (v rest t1 t2 : str) :
  nl ∉ v -> contains uri_attr v = false ->
  (rest = [] \/ exists r, rest = nl :: r) ->
  lit "RI=" ++ dquote :: v ++ rest = t1 ++ t2 ->
  Forall (fun a => not_nl a = true) t1 ->
  startswith t2 uri_attr = false.
Proof.
  intros Hv Hc Hrest Hsplit Ht1.
  assert (forall k, startswith k uri_attr = true -> forall a b, v = a ++ k ++ b -> False)
    as Hocc.
  { intros k [t ->]%startswith_spec a b ->.
    assert (contains uri_attr (a ++ (uri_attr ++ t) ++ b) = true); [|congruence].
    apply contains_spec. exists a, (t ++ b). by rewrite <- !app_assoc. }
  change (lit "RI=") with ["R"; "I"; "="] in Hsplit.
  destruct t1 as [|c1 [|c2 [|c3 [|c4 t1]]]]; cbn [app] in Hsplit.
  1-4: by simplify_eq.
  injection Hsplit as _ _ _ _ Hsplit. inversion_clear Ht1 as [|? ? _ Ht].
  inversion_clear Ht as [|? ? _ Ht1]. inversion_clear Ht1 as [|? ? _ Ht].
  inversion_clear Ht as [|? ? _ Ht1]. apply nl_free_forall in Ht1.
  destruct (startswith t2 uri_attr) eqn:E; [|done]. exfalso.
  destruct Hrest as [-> | [r ->]].
  - rewrite app_nil_r in Hsplit. by apply (Hocc t2 E t1 []); rewrite app_nil_r.
  - apply app_eq_inv in Hsplit as [(k & -> & Hk) | (k & -> & Hk)].
    + subst t2. rewrite startswith_ext in E by by apply not_elem_of_check.
      by apply (Hocc k E t1 []); rewrite app_nil_r.
    + destruct k as [|c k].
      * simpl in Hk. subst t2. by vm_compute in E.
      * injection Hk as <- _. rewrite not_elem_of_app, not_elem_of_cons in Ht1.
        tauto.
Qed.

Lemma attribute_match (d a u tail rest : str) :
  nl ∉ a -> u <> [] -> dquote ∉ u -> nl ∉ u -> nl ∉ tail ->
  (rest = [] \/ exists r, rest = nl :: r) ->
  contains uri_attr (u ++ dquote :: tail) = false ->
  match_here (attribute_pattern d)
    (d ++ a ++ uri_attr ++ u ++ dquote :: tail ++ rest)
  = Some {| m_pre := d ++ a ++ uri_attr; m_grp := u; m_post := [dquote] |}.
Proof.
  intros Ha Hne Hq Hu Htail Hrest Hc. unfold attribute_pattern.
  fold uri_attr.
  rewrite match_here_lit, startswith_app, drop_app_length, match_here_star.
  pose proof (uri_attr_match u (tail ++ rest) Hne Hq) as Hk.
  assert (star not_nl (match_here [Lit uri_attr; Group not_dquote; Lit [dquote]])
            (uri_attr ++ u ++ dquote :: tail ++ rest)
          = Some {| m_pre := uri_attr; m_grp := u; m_post := [dquote] |}) as Hstar.
  { change (uri_attr ++ u ++ dquote :: tail ++ rest)
      with ("U" :: lit "RI=" ++ dquote :: u ++ dquote :: tail ++ rest) in *.
    cbn [star]. change (not_nl "U") with true. cbv iota.
    rewrite star_none; [exact Hk|].
    intros t1 t2 Hsplit Ht1. apply uri_attr_needed.
    apply (uri_attr_last (u ++ dquote :: tail) rest t1 t2); try done.
    - rewrite not_elem_of_app, not_elem_of_cons. by repeat split.
    - by rewrite <- Hsplit, <- !app_assoc. }
  rewrite (star_prefix _ _ a _ _ (not_nl_forall _ Ha) Hstar).
  cbn [fmap option_fmap option_map]. unfold push. cbn [m_pre m_grp m_post].
  by rewrite <- ?app_assoc.
Qed.

End AttributeEntry.

(** ** The rewriter *)

Section RewriterMore.

Variable urlparse : str -> exn + Urllib.SplitResult.
Variable urljoin : str -> str -> exn + str.
Variable base_url proxy_path : str.
Variable referer : option str.

(** X8: for a playlist in which none of the five directive literals occurs,
    the empty playlist in particular, the rewriter raises what [urlparse]
    raises on the base URL, and returns the playlist unchanged when
    [urlparse] returns. *)
Theorem rewrite_without_directives (content : str) :
  (forall p, p ∈ patterns -> contains (pattern_head p) content = false) ->
  rewrite_m3u8_content urlparse urljoin base_url proxy_path referer content
  = do _ <- urlparse base_url; inr content.
Proof.
  intros H. unfold rewrite_m3u8_content.
  destruct (urlparse base_url) as [e|parsed_base]; [done|]. cbn [bind].
  assert (forall p, p ∈ patterns ->
            sub p (rewrite_url urljoin base_url proxy_path referer
                     (Urllib.scheme parsed_base) (Urllib.netloc parsed_base))
              content = inr content) as Hsub.
  { intros p Hp. specialize (H p Hp). unfold patterns in Hp.
    rewrite !elem_of_cons, elem_of_nil in Hp.
    destruct Hp as [->|[->|[->|[->|[->|[]]]]]]; by apply sub_head_absent. }
  unfold patterns at 1. cbn [passes].
  rewrite (Hsub pat_stream_inf); [cbn [bind]|].
  2: { unfold patterns; rewrite !elem_of_cons; tauto. }
  rewrite (Hsub pat_extinf); [cbn [bind]|].
  2: { unfold patterns; rewrite !elem_of_cons; tauto. }
  rewrite (Hsub pat_map); [cbn [bind]|].
  2: { unfold patterns; rewrite !elem_of_cons; tauto. }
  rewrite (Hsub pat_media); [cbn [bind]|].
  2: { unfold patterns; rewrite !elem_of_cons; tauto. }
  rewrite (Hsub pat_i_frame); [done|].
  unfold patterns; rewrite !elem_of_cons; tauto.
Qed.

Variable base_scheme base_netloc : str.

(** X9: in a pass of a next-line pattern, a directive whose attributes hold
    no newline and whose next line starts with a reference (a non-empty run
    without newline and [#], ended by the end of the text, a newline or a
    [#]) is rewritten to the directive line, the newline and the proxied
    URL of the reference, when the reference occurs nowhere else in the
    matched text; the pass goes on with the text after the reference, and
    it raises what the resolution of the reference raises. *)
Theorem next_line_entry_rewritten (directive attrs uri rest : str) :
  nl ∉ attrs -> uri <> [] -> Forall (fun a => not_nl_hash a = true) uri ->
  stops rest ->
  occurrences uri ((directive ++ attrs ++ [nl]) ++ uri)
  = [length (directive ++ attrs ++ [nl])] ->
  sub (next_line_pattern directive)
    (rewrite_url urljoin base_url proxy_path referer base_scheme base_netloc)
    (directive ++ attrs ++ nl :: uri ++ rest)
  = do proxy <- proxy_url urljoin base_url proxy_path referer base_scheme
                  base_netloc uri;
    do r <- sub (next_line_pattern directive)
              (rewrite_url urljoin base_url proxy_path referer base_scheme
                 base_netloc) rest;
    inr (directive ++ attrs ++ nl :: proxy ++ r).
Proof.
  intros Hattrs Hne Huri Hrest Hocc.
  pose proof (next_line_match directive attrs uri rest Hattrs Hne Huri Hrest) as Hm.
  set (m := {| m_pre := directive ++ attrs ++ [nl]; m_grp := uri; m_post := [] |}) in *.
  assert (directive ++ attrs ++ nl :: uri ++ rest = group0 m ++ rest) as Htext.
  { unfold group0, m. cbn. rewrite app_nil_r. by rewrite <- !app_assoc. }
  rewrite Htext in Hm |- *. unfold sub at 1.
  rewrite scan_sub_hit
    with (out := rewrite_url urljoin base_url proxy_path referer base_scheme
                   base_netloc m).
  - fold (sub (next_line_pattern directive)
            (rewrite_url urljoin base_url proxy_path referer base_scheme
               base_netloc) rest).
    rewrite rewrite_url_at_occurrence; [|done|].
    2:{ unfold group0, group1, m. cbn [m_pre m_grp m_post].
        by rewrite app_nil_r. }
    unfold group1, m. cbn [m_pre m_grp m_post].
    destruct (proxy_url _ _ _ _ _ _ uri) as [e|proxy]; [done|]. cbn [bind].
    destruct (sub _ _ rest) as [e|r]; [done|]. cbn [bind].
    rewrite ?app_nil_r. rewrite <- ?app_assoc. reflexivity.
  - unfold group0, m. cbn [m_pre m_grp m_post]. intros H.
    apply (f_equal length) in H. rewrite !length_app in H. simpl in H. lia.
  - by rewrite Hm.
Qed.

(** X10: in the [#EXT-X-MAP] pass, a non-empty quoted reference without a
    double quote is replaced by its proxied URL, the directive and both
    quotes staying as they are, when the reference occurs nowhere else in
    the matched text; the pass goes on after the closing quote, and it
    raises what the resolution of the reference raises. *)
Theorem map_entry_rewritten (u rest : str) :
  u <> [] -> dquote ∉ u ->
  occurrences u ((lit "#EXT-X-MAP:URI=" ++ [dquote]) ++ u ++ [dquote])
  = [length (lit "#EXT-X-MAP:URI=" ++ [dquote])] ->
  sub pat_map
    (rewrite_url urljoin base_url proxy_path referer base_scheme base_netloc)
    ((lit "#EXT-X-MAP:URI=" ++ [dquote]) ++ u ++ dquote :: rest)
  = do proxy <- proxy_url urljoin base_url proxy_path referer base_scheme
                  base_netloc u;
    do r <- sub pat_map
              (rewrite_url urljoin base_url proxy_path referer base_scheme
                 base_netloc) rest;
    inr ((lit "#EXT-X-MAP:URI=" ++ [dquote]) ++ proxy ++ dquote :: r).
Proof.
  intros Hne Hu Hocc.
  pose proof (map_match u rest Hne Hu) as Hm.
  set (m := {| m_pre := lit "#EXT-X-MAP:URI=" ++ [dquote]; m_grp := u;
               m_post := [dquote] |}) in *.
  assert ((lit "#EXT-X-MAP:URI=" ++ [dquote]) ++ u ++ dquote :: rest
          = group0 m ++ rest) as Htext.
  { unfold group0, m. cbn [m_pre m_grp m_post]. by rewrite <- !app_assoc. }
  rewrite Htext in Hm |- *. unfold sub at 1.
  rewrite scan_sub_hit
    with (out := rewrite_url urljoin base_url proxy_path referer base_scheme
                   base_netloc m).
  - fold (sub pat_map
            (rewrite_url urljoin base_url proxy_path referer base_scheme
               base_netloc) rest).
    rewrite rewrite_url_at_occurrence by done.
    unfold group1, m. cbn [m_pre m_grp m_post].
    destruct (proxy_url _ _ _ _ _ _ u) as [e|proxy]; [done|]. cbn [bind].
    destruct (sub _ _ rest) as [e|r]; [done|]. cbn [bind].
    by rewrite <- !app_assoc.
  - done.
  - by rewrite Hm.
Qed.

(** X11: in a pass of an attribute pattern ([#EXT-X-MEDIA],
    [#EXT-X-I-FRAME-STREAM-INF]) it is the last [URI] attribute of the line
    that is rewritten, when its reference occurs nowhere else in the
    matched text: the attributes before it, an earlier [URI] attribute with
    another reference among them, stay as they are, and the pass goes on
    after the closing quote; it raises what the resolution of the
    reference raises. *)
Theorem attribute_entry_rewritten (d a u tail rest : str) :
  nl ∉ a -> u <> [] -> dquote ∉ u -> nl ∉ u -> nl ∉ tail ->
  (rest = [] \/ exists r, rest = nl :: r) ->
  contains uri_attr (u ++ dquote :: tail) = false ->
  occurrences u ((d ++ a ++ uri_attr) ++ u ++ [dquote])
  = [length (d ++ a ++ uri_attr)] ->
  sub (attribute_pattern d)
    (rewrite_url urljoin base_url proxy_path referer base_scheme base_netloc)
    (d ++ a ++ uri_attr ++ u ++ dquote :: tail ++ rest)
  = do proxy <- proxy_url urljoin base_url proxy_path referer base_scheme
                  base_netloc u;
    do r <- sub (attribute_pattern d)
              (rewrite_url urljoin base_url proxy_path referer base_scheme
                 base_netloc) (tail ++ rest);
    inr ((d ++ a ++ uri_attr) ++ proxy ++ dquote :: r).
Proof.
  intros Ha Hne Hq Hu Htail Hrest Hc Hocc.
  pose proof (attribute_match d a u tail rest Ha Hne Hq Hu Htail Hrest Hc) as Hm.
  set (m := {| m_pre := d ++ a ++ uri_attr; m_grp := u; m_post := [dquote] |}) in *.
  assert (d ++ a ++ uri_attr ++ u ++ dquote :: tail ++ rest
          = group0 m ++ tail ++ rest) as Htext.
  { unfold group0, m. cbn [m_pre m_grp m_post]. by rewrite <- !app_assoc. }
  rewrite Htext in Hm |- *. unfold sub at 1.
  rewrite scan_sub_hit
    with (out := rewrite_url urljoin base_url proxy_path referer base_scheme
                   base_netloc m).
  - fold (sub (attribute_pattern d)
            (rewrite_url urljoin base_url proxy_path referer base_scheme
               base_netloc) (tail ++ rest)).
    rewrite rewrite_url_at_occurrence by done.
    unfold group1, m. cbn [m_pre m_grp m_post].
    destruct (proxy_url _ _ _ _ _ _ u) as [e|proxy]; [done|]. cbn [bind].
    destruct (sub _ _ (tail ++ rest)) as [e|r]; [done|]. cbn [bind].
    by rewrite <- !app_assoc.
  - unfold group0, m. cbn [m_pre m_grp m_post]. intros H.
    apply (f_equal length) in H. rewrite !length_app in H. simpl in H. lia.
  - by rewrite Hm.
Qed.

Lemma next_line_group_class (directive t : str) (m : re_match) :
  match_here (next_line_pattern directive) t = Some m ->
  Forall (fun a => not_nl_hash a = true) (m_grp m).
Proof.
  unfold next_line_pattern. rewrite match_here_lit, match_here_star.
  destruct (startswith t directive); [|done].
  destruct (star _ _ _) as [m1|] eqn:Em; [|done]. intros [= <-].
  cbn [push m_grp]. revert Em.
  apply (star_group_prop (Forall (fun a => not_nl_hash a = true))).
  intros s' m'. rewrite match_here_lit, match_here_group.
  destruct (startswith s' [nl]); [|done].
  destruct (plus _ _ _) as [m2|] eqn:E2; [|done]. intros [= <-].
  by apply plus_forall in E2.
Qed.

(** A pass whose group never holds a newline keeps the number of newlines,
    when the proxied URL of a one-line reference is one line. *)
Lemma sub_newlines (p : list item) (s out : str) :
  (forall t m, match_here p t = Some m -> nl ∉ m_grp m) ->
  (forall url proxy, nl ∉ url ->
     proxy_url urljoin base_url proxy_path referer base_scheme base_netloc url
     = inr proxy -> nl ∉ proxy) ->
  sub p (rewrite_url urljoin base_url proxy_path referer base_scheme base_netloc) s
  = inr out ->
  newlines out = newlines s.
Proof.
  intros Hgrp Hproxy. unfold sub. apply scan_sub_measure; [apply newlines_app|].
  intros t n o. destruct (match_here p t) as [m|] eqn:Em; [|done].
  intros [= <- Ho]. destruct (match_here_sound _ _ _ Em) as [rest ->].
  rewrite length_app, take_app_length. split; [lia|].
  unfold rewrite_url in Ho. apply bind_inr in Ho as (proxy & Hp & [= <-]).
  apply replace_newlines. unfold group1 in *.
  pose proof (Hgrp _ _ Em) as Hg. pose proof (Hproxy _ _ Hg Hp) as Hn.
  apply newlines_0 in Hg, Hn. congruence.
Qed.

(** The proxied URL of a one-line reference is one line, when the proxy
    path, the referer and the scheme and the network location of the base
    URL are, and the resolver keeps a one-line reference on one line. *)
Lemma proxy_url_one_line (url proxy : str) :
  nl ∉ proxy_path ->
  (forall r, referer = Some r -> nl ∉ r) ->
  nl ∉ base_scheme -> nl ∉ base_netloc ->
  (forall u r, nl ∉ u -> urljoin base_url u = inr r -> nl ∉ r) ->
  nl ∉ url ->
  proxy_url urljoin base_url proxy_path referer base_scheme base_netloc url
  = inr proxy ->
  nl ∉ proxy.
Proof.
  intros Hp Hr Hs Hn Hj Hu. unfold proxy_url. intros H.
  apply bind_inr in H as (absolute & Ha & [= <-]).
  assert (nl ∉ absolute) as Habs.
  { revert Ha. unfold absolute_url. destruct (_ || _); [by intros [= <-]|].
    destruct (startswith url _); [|by apply Hj]. intros [= <-].
    repeat (rewrite not_elem_of_app || rewrite not_elem_of_cons).
    repeat split; try done; vm_compute; congruence. }
  assert (nl ∉ proxy_path ++ lit "?url=" ++ absolute) as Hq.
  { rewrite !not_elem_of_app. repeat split; try done.
    by apply not_elem_of_check. }
  destruct referer as [[|c r]|]; try done.
  rewrite (not_elem_of_app _ (lit "&referer=" ++ c :: r)).
  split; [done|]. rewrite not_elem_of_app.
  split; [by apply not_elem_of_check | by apply Hr].
Qed.

(** X12: when the two next-line passes return, their result has as many
    newlines as the playlist, provided the proxy path, the referer and the
    scheme and the network location of the base URL hold no newline and
    the resolver keeps a reference without newline free of newlines. *)
Theorem rewrite_next_line_newlines (content out : str) :
  nl ∉ proxy_path ->
  (forall r, referer = Some r -> nl ∉ r) ->
  nl ∉ base_scheme -> nl ∉ base_netloc ->
  (forall u r, nl ∉ u -> urljoin base_url u = inr r -> nl ∉ r) ->
  rewrite_next_line urljoin base_url proxy_path referer base_scheme base_netloc
    content = inr out ->
  newlines out = newlines content.
Proof.
  intros Hp Hr Hs Hn Hj. unfold rewrite_next_line. cbn [passes].
  destruct (sub pat_stream_inf _ content) as [e|r1] eqn:E1; [done|]. cbn [bind].
  destruct (sub pat_extinf _ r1) as [e|r2] eqn:E2; [done|]. intros [= <-].
  assert (forall directive t m,
            match_here (next_line_pattern directive) t = Some m -> nl ∉ m_grp m)
    as Hgrp.
  { intros directive t m Hm. apply not_nl_hash_no_nl.
    by apply next_line_group_class in Hm. }
  assert (forall url proxy, nl ∉ url ->
            proxy_url urljoin base_url proxy_path referer base_scheme base_netloc
              url = inr proxy -> nl ∉ proxy) as Hproxy.
  { intros url proxy Hu Hq. by apply (proxy_url_one_line url proxy). }
  rewrite (sub_newlines pat_extinf r1 r2 (Hgrp _) Hproxy E2).
  by rewrite (sub_newlines pat_stream_inf content r1 (Hgrp _) Hproxy E1).
Qed.

End RewriterMore.

(** * Worked examples *)


Lemma not_elem_of_lits (k : str) (ks : list str) :
  forallb (fun k' => negb (bool_decide (k = k'))) ks = true -> k ∉ ks.
Proof.
  induction ks as [|k' ks IH]; simpl; [intros _; apply not_elem_of_nil|].
  intros [Hk Hks]%andb_true_iff. rewrite not_elem_of_cons. split; [|by apply IH].
  apply negb_true_iff in Hk. by case_bool_decide.
Qed.

Lemma urljoin_merge_one_line (base url r : str) :
  nl ∉ base -> nl ∉ url -> Urllib.urljoin_merge base url = inr r -> nl ∉ r.
Proof.
  intros Hb Hu. unfold Urllib.urljoin_merge.
  destruct base as [|c base]; [by intros [= <-]|].
  destruct url as [|c' url]; [by intros [= <-]|].
  destruct (Urllib.urlparse (c :: base)); [done|]. cbn [bind].
  destruct (Urllib.urlparse (c' :: url)); [done|]. cbn [bind].
  destruct (before_last "/" (c :: base)) as [dir|] eqn:Ed;
    intros [= <-]; [|done].
  apply before_last_Some in Ed as (tail & Hbase & _).
  rewrite Hbase, not_elem_of_app in Hb. destruct Hb as [Hd _].
  rewrite not_elem_of_app, not_elem_of_cons. repeat split; try done.
Qed.

(** ** The rewriter *)


Lemma proxy_url_form_witness :
  proxy_url Urllib.urljoin_merge ex_base ex_proxy (Some ex_referer) ex_scheme
    ex_netloc (lit "seg1.ts")
  = inr (ex_proxied ++ lit "&referer=https://example.com/page")
  /\ proxy_url Urllib.urljoin_merge ex_base ex_proxy None ex_scheme ex_netloc
       (lit "seg1.ts")
     = inr ex_proxied.
Proof.
  split.
  - destruct (proxy_url_form Urllib.urljoin_merge ex_base ex_proxy
                (Some ex_referer) ex_scheme ex_netloc (lit "seg1.ts"))
      as (H & _ & _).
    by rewrite (H ex_referer eq_refl).
  - destruct (proxy_url_form Urllib.urljoin_merge ex_base ex_proxy None
                ex_scheme ex_netloc (lit "seg1.ts")) as (_ & H & _).
    rewrite H; [reflexivity | by left].
Defined.

(** C6, as stated, fails: an empty referer is supplied and nothing is
    appended; and with no referer a reference that carries [&referer=]
    itself brings that key into the rewritten URL. *)
Lemma proxy_url_referer_counterexample :
  proxy_url Urllib.urljoin_merge ex_base ex_proxy (Some []) ex_scheme ex_netloc
    (lit "seg1.ts")
  = inr ex_proxied
  /\ exists proxy,
       proxy_url Urllib.urljoin_merge ex_base ex_proxy None ex_scheme ex_netloc
         (lit "seg1.ts?a=1&referer=x") = inr proxy
       /\ contains (lit "&referer=") proxy = true.
Proof. split; [reflexivity|]. eexists. split; reflexivity. Qed.

Lemma rewrite_url_single_occurrence_witness :
  pat_extinf ∈ patterns
  /\ match_here pat_extinf ex_plain_segment = Some ex_plain_match
  /\ occurrences (group1 ex_plain_match) (group0 ex_plain_match)
     = [length (m_pre ex_plain_match)]
  /\ rewrite_url Urllib.urljoin_merge ex_base ex_proxy None ex_scheme ex_netloc
       ex_plain_match
     = inr ((lit "#EXTINF:10," ++ [nl]) ++ ex_proxied ++ []).
Proof.
  assert (Hp : pat_extinf ∈ patterns) by (unfold patterns; repeat constructor).
  split; [exact Hp|]. split; [reflexivity|]. split; [reflexivity|].
  rewrite (rewrite_url_single_occurrence Urllib.urljoin_merge ex_base ex_proxy
             None ex_scheme ex_netloc pat_extinf ex_plain_segment ex_plain_match
             Hp eq_refl eq_refl).
  reflexivity.
Defined.

(** C2, as stated, fails: the reference [seg1.ts] also stands in the title
    of the directive, and both occurrences are replaced, so the text before
    the reference is changed and more than the first occurrence is
    substituted. *)
Lemma rewrite_url_repeated_counterexample :
  match_here pat_extinf ex_titled_segment = Some ex_titled_match
  /\ rewrite_url Urllib.urljoin_merge ex_base ex_proxy None ex_scheme ex_netloc
       ex_titled_match
     = inr (lit "#EXTINF:10," ++ ex_proxied ++ [nl] ++ ex_proxied)
  /\ rewrite_url Urllib.urljoin_merge ex_base ex_proxy None ex_scheme ex_netloc
       ex_titled_match
     <> inr (lit "#EXTINF:10,seg1.ts" ++ [nl] ++ ex_proxied)
  /\ rewrite_url Urllib.urljoin_merge ex_base ex_proxy None ex_scheme ex_netloc
       ex_titled_match
     <> inr (lit "#EXTINF:10," ++ ex_proxied ++ [nl] ++ lit "seg1.ts").
Proof. repeat split; try reflexivity; vm_compute; congruence. Qed.

(** C7 (what the code does): the playlist has one reference, [seg1.ts],
    whose text is also the title of its directive; the output carries two
    proxied URLs, one of them in the title. *)
Lemma rewrite_duplicates_reference :
  rewrite_m3u8_content Urllib.urlparse Urllib.urljoin_merge ex_base ex_proxy None
    ex_titled_playlist
  = inr ex_titled_output
  /\ ex_titled_output
     = lit "#EXTM3U" ++ [nl]
       ++ lit "#EXTINF:10," ++ ex_proxied ++ [nl] ++ ex_proxied
  /\ length (occurrences (lit "?url=") ex_titled_output) = 2%nat.
Proof. repeat split. Qed.

(** ** The classifier *)

(** C3: the path of the URL ends with [.m3u8], the content type is not a
    playlist type, and the URL carries a query string; the response is
    classified as binary. *)
Lemma is_m3u8_query_counterexample :
  (exists parts,
     Urllib.urlparse ex_query_url = inr parts
     /\ endswith (Urllib.path parts) (lit ".m3u8") = true)
  /\ contains (lit "application/vnd.apple.mpegurl") (lower (lit "video/mp2t")) = false
  /\ contains (lit "application/x-mpegurl") (lower (lit "video/mp2t")) = false
  /\ is_m3u8 (lit "video/mp2t") ex_query_url = false.
Proof. split; [eexists; split; reflexivity|]. repeat split. Qed.

(** ** Header policy *)

Lemma outbound_headers_referer_witness :
  (exists h,
     outbound_headers Urllib.urlparse (Some ex_referer) (Some ex_browser_headers)
     = inr h
     /\ h !! lit "Referer" = Some ex_referer
     /\ h !! lit "Origin" = Some (lit "example.com"))
  /\ outbound_headers Urllib.urlparse (Some ex_bad_referer)
       (Some ex_browser_headers)
     = inl (ValueError (lit "Invalid IPv6 URL"))
  /\ (exists h,
        outbound_headers Urllib.urlparse None (Some ex_browser_headers) = inr h
        /\ h !! lit "Origin" = None
        /\ h !! lit "origin" = Some (lit "https://player.example")).
Proof.
  split; [|split].
  - destruct (outbound_headers_referer Urllib.urlparse (Some ex_referer)
                (Some ex_browser_headers)) as (H & _ & _).
    exact (H ex_referer (Urllib.split_parts ex_referer) eq_refl ltac:(done)
             eq_refl).
  - destruct (outbound_headers_referer Urllib.urlparse (Some ex_bad_referer)
                (Some ex_browser_headers)) as (_ & H & _).
    exact (H ex_bad_referer _ eq_refl ltac:(done) eq_refl).
  - destruct (outbound_headers_referer Urllib.urlparse None
                (Some ex_browser_headers)) as (_ & _ & H).
    destruct (H ltac:(by left)) as (h & Hh & Ho & Hk).
    exists h. split; [done|]. split; [done|].
    by apply (Hk ex_browser_headers (lit "origin") (lit "https://player.example")).
Defined.

(** C4: for the referer [https://example.com/page] the [Origin] header is
    [example.com], without the scheme; and with no referer the origin the
    browser named is sent upstream. *)
Lemma outbound_headers_origin_counterexample :
  (exists h,
     outbound_headers Urllib.urlparse (Some (lit "https://example.com/page")) None
     = inr h
     /\ h !! lit "Origin" = Some (lit "example.com"))
  /\ lit "example.com" <> lit "https://example.com"
  /\ (exists h,
        outbound_headers Urllib.urlparse None (Some ex_browser_headers) = inr h
        /\ h !! lit "origin" = Some (lit "https://player.example")).
Proof.
  split; [eexists; split; reflexivity|].
  split; [vm_compute; congruence|]. eexists. split; reflexivity.
Qed.

Lemma outbound_headers_forwarded_witness :
  exists h,
    outbound_headers Urllib.urlparse (Some ex_referer)
      (Some (req_headers ex_request)) = inr h
    /\ req_headers ex_request !! lit "accept" = Some (lit "*/*")
    /\ (lower (lit "accept") ∉ request_dropped)
    /\ (lit "accept" ∉ overlay_names)
    /\ h !! lit "accept" = Some (lit "*/*")
    /\ h !! lit "Accept" = Some (lit "*/*").
Proof.
  eexists. split; [reflexivity|].
  assert (H1 : req_headers ex_request !! lit "accept" = Some (lit "*/*"))
    by reflexivity.
  assert (H2 : lower (lit "accept") ∉ request_dropped)
    by by apply not_elem_of_lits.
  assert (H3 : lit "accept" ∉ overlay_names) by by apply not_elem_of_lits.
  split; [exact H1|]. split; [exact H2|]. split; [exact H3|].
  split; [|reflexivity].
  exact (outbound_headers_forwarded Urllib.urlparse (Some ex_referer)
           (req_headers ex_request) _ (lit "accept") (lit "*/*") eq_refl
           H1 H2 H3).
Defined.

(** ** The handler *)

Lemma proxy_hls_unreachable_witness :
  exists h,
    outbound_headers Urllib.urlparse None (Some (req_headers ex_request)) = inr h
    /\ ex_down_client (lit "GET") ex_url h None
       = inl (RequestError (lit "timed out"))
    /\ proxy_hls Urllib.urlparse Urllib.urljoin_merge ex_down_client ex_exn_str
         ex_request ex_url None
       = inl (HTTPException 500
                (lit "Proxy error: Error proxying request: timed out")).
Proof.
  eexists. split; [reflexivity|]. split; [reflexivity|].
  exact (proj2 (proxy_hls_unreachable Urllib.urlparse Urllib.urljoin_merge
                  ex_down_client ex_exn_str ex_request ex_url None _
                  (lit "timed out") eq_refl eq_refl)).
Defined.

(** A segment and a playlist, both answered with the status 404. *)
Lemma proxy_hls_status_witness :
  proxy_hls Urllib.urlparse Urllib.urljoin_merge ex_client ex_exn_str
    ex_request ex_url None
  = inr {| resp_body := Streaming [lit "gone!"];
           resp_headers := client_headers (headers ex_response);
           resp_status := 404 |}
  /\ proxy_hls Urllib.urlparse Urllib.urljoin_merge ex_playlist_client ex_exn_str
       ex_request ex_playlist_url None
     = inr {| resp_body := Content (lit "#EXTINF:10," ++ [nl] ++ ex_proxied);
              resp_headers := client_headers (headers ex_playlist_response);
              resp_status := 404 |}.
Proof.
  split.
  - destruct (proxy_hls_status Urllib.urlparse Urllib.urljoin_merge ex_client
                ex_exn_str ex_request ex_url None _ ex_response eq_refl eq_refl)
      as (H & _).
    exact (H eq_refl).
  - destruct (proxy_hls_status Urllib.urlparse Urllib.urljoin_merge
                ex_playlist_client ex_exn_str ex_request ex_playlist_url None _
                ex_playlist_response eq_refl eq_refl) as (_ & H & _).
    exact (H eq_refl (lit "#EXTINF:10," ++ [nl] ++ ex_proxied) eq_refl).
Defined.

(** C10, as stated, fails: the upstream playlist is fetched with the status
    200, a reference of it makes [urljoin] raise, and the handler raises
    the 500 exception. *)
Lemma proxy_hls_rewrite_counterexample :
  (exists h,
     outbound_headers Urllib.urlparse None (Some (req_headers ex_request)) = inr h
     /\ ex_bad_client (lit "GET") ex_playlist_url h None = inr ex_bad_response)
  /\ status_code ex_bad_response = 200
  /\ Urllib.urljoin_merge ex_base (lit "x://[bad")
     = inl (ValueError (lit "Invalid IPv6 URL"))
  /\ proxy_hls Urllib.urlparse Urllib.urljoin_merge ex_bad_client ex_exn_str
       ex_request ex_playlist_url None
     = inl (HTTPException 500 (lit "Proxy error: Invalid IPv6 URL")).
Proof. split; [eexists; split; reflexivity|]. repeat split. Qed.

Lemma proxy_hls_headers_witness :
  (exists r,
     proxy_hls Urllib.urlparse Urllib.urljoin_merge ex_client ex_exn_str
       ex_request ex_url None = inr r
     /\ resp_body r = Streaming [lit "gone!"]
     /\ resp_headers r !! lit "content-length" = None
     /\ resp_headers r !! lit "server" = Some (lit "nginx")
     /\ resp_headers r !! lit "Access-Control-Allow-Origin" = Some (lit "*"))
  /\ (exists r,
        proxy_hls Urllib.urlparse Urllib.urljoin_merge ex_playlist_client
          ex_exn_str ex_request ex_playlist_url None = inr r
        /\ resp_body r = Content (lit "#EXTINF:10," ++ [nl] ++ ex_proxied)
        /\ resp_headers r !! lit "content-length" = None
        /\ resp_headers r !! lit "content-type"
           = Some (lit "application/vnd.apple.mpegurl")
        /\ resp_headers r !! lit "Access-Control-Allow-Origin" = Some (lit "*")).
Proof.
  split.
  - eexists. split; [reflexivity|]. split; [reflexivity|].
    destruct (proxy_hls_headers Urllib.urlparse Urllib.urljoin_merge ex_client
                ex_exn_str ex_request ex_url None _ eq_refl)
      as (h & response & _ & Hc & _ & _ & H1 & _ & _ & H4 & H5 & _).
    injection Hc as <-.
    split; [|split; [|exact H1]].
    + apply H4. vm_compute. repeat constructor.
    + apply H5; [reflexivity | reflexivity |]. by apply not_elem_of_lits.
  - eexists. split; [reflexivity|]. split; [reflexivity|].
    destruct (proxy_hls_headers Urllib.urlparse Urllib.urljoin_merge
                ex_playlist_client ex_exn_str ex_request ex_playlist_url None _
                eq_refl)
      as (h & response & _ & Hc & _ & _ & H1 & _ & _ & H4 & H5 & _).
    injection Hc as <-.
    split; [|split; [|exact H1]].
    + apply H4. vm_compute. repeat constructor.
    + apply H5; [reflexivity | reflexivity |]. by apply not_elem_of_lits.
Defined.

Lemma options_handler_cors_witness :
  exists r,
    proxy_hls Urllib.urlparse Urllib.urljoin_merge ex_client ex_exn_str
      ex_request ex_url None = inr r
    /\ lit "Access-Control-Allow-Methods" ∈ cors_names
    /\ resp_headers r !! lit "Access-Control-Allow-Methods"
       = Some (lit "GET, OPTIONS")
    /\ resp_headers options_handler !! lit "Access-Control-Allow-Methods"
       = Some (lit "GET, OPTIONS").
Proof.
  eexists. split; [reflexivity|].
  assert (H : lit "Access-Control-Allow-Methods" ∈ cors_names).
  { unfold cors_names. rewrite !elem_of_cons. tauto. }
  split; [exact H|].
  destruct (options_handler_cors Urllib.urlparse Urllib.urljoin_merge ex_client
              ex_exn_str ex_request ex_url None _
              (lit "Access-Control-Allow-Methods") eq_refl H) as [_ Heq].
  split; [reflexivity|]. rewrite <- Heq. reflexivity.
Defined.

(** ** Directives without a reference *)



(** ** Entries *)

Lemma rewrite_without_directives_witness :
  (forall p, p ∈ patterns -> contains (pattern_head p) ex_comment_playlist = false)
  /\ rewrite_m3u8_content Urllib.urlparse Urllib.urljoin_merge ex_base ex_proxy
       (Some ex_referer) ex_comment_playlist
     = inr ex_comment_playlist
  /\ rewrite_m3u8_content Urllib.urlparse Urllib.urljoin_merge ex_bad_referer
       ex_proxy None ex_comment_playlist
     = inl (ValueError (lit "Invalid IPv6 URL")).
Proof.
  assert (H : forall p, p ∈ patterns ->
                contains (pattern_head p) ex_comment_playlist = false).
  { intros p Hp. unfold patterns in Hp. rewrite !elem_of_cons, elem_of_nil in Hp.
    destruct Hp as [->|[->|[->|[->|[->|[]]]]]]; reflexivity. }
  split; [exact H|]. split.
  - by rewrite (rewrite_without_directives Urllib.urlparse Urllib.urljoin_merge
                  ex_base ex_proxy (Some ex_referer) ex_comment_playlist H).
  - by rewrite (rewrite_without_directives Urllib.urlparse Urllib.urljoin_merge
                  ex_bad_referer ex_proxy None ex_comment_playlist H).
Defined.

Lemma next_line_entry_rewritten_witness :
  (nl ∉ lit "10,")
  /\ lit "seg1.ts" <> []
  /\ Forall (fun a => not_nl_hash a = true) (lit "seg1.ts")
  /\ stops (nl :: lit "#EXT-X-ENDLIST")
  /\ occurrences (lit "seg1.ts")
       ((lit "#EXTINF:" ++ lit "10," ++ [nl]) ++ lit "seg1.ts")
     = [length (lit "#EXTINF:" ++ lit "10," ++ [nl])]
  /\ sub (next_line_pattern (lit "#EXTINF:"))
       (rewrite_url Urllib.urljoin_merge ex_base ex_proxy None ex_scheme ex_netloc)
       (lit "#EXTINF:" ++ lit "10," ++ nl :: lit "seg1.ts"
        ++ nl :: lit "#EXT-X-ENDLIST")
     = inr (lit "#EXTINF:" ++ lit "10," ++ nl :: ex_proxied
            ++ nl :: lit "#EXT-X-ENDLIST").
Proof.
  assert (H1 : nl ∉ lit "10,") by by apply not_elem_of_check.
  assert (H2 : lit "seg1.ts" <> []) by done.
  assert (H3 : Forall (fun a => not_nl_hash a = true) (lit "seg1.ts"))
    by (vm_compute; repeat constructor).
  assert (H4 : stops (nl :: lit "#EXT-X-ENDLIST")) by reflexivity.
  assert (H5 : occurrences (lit "seg1.ts")
                 ((lit "#EXTINF:" ++ lit "10," ++ [nl]) ++ lit "seg1.ts")
               = [length (lit "#EXTINF:" ++ lit "10," ++ [nl])]) by reflexivity.
  split; [exact H1|]. split; [exact H2|]. split; [exact H3|].
  split; [exact H4|]. split; [exact H5|].
  rewrite (next_line_entry_rewritten Urllib.urljoin_merge ex_base ex_proxy None
             ex_scheme ex_netloc _ _ _ _ H1 H2 H3 H4 H5).
  reflexivity.
Defined.

Lemma map_entry_rewritten_witness :
  lit "init.mp4" <> []
  /\ (dquote ∉ lit "init.mp4")
  /\ occurrences (lit "init.mp4")
       ((lit "#EXT-X-MAP:URI=" ++ [dquote]) ++ lit "init.mp4" ++ [dquote])
     = [length (lit "#EXT-X-MAP:URI=" ++ [dquote])]
  /\ sub pat_map
       (rewrite_url Urllib.urljoin_merge ex_base ex_proxy None ex_scheme ex_netloc)
       ((lit "#EXT-X-MAP:URI=" ++ [dquote]) ++ lit "init.mp4"
        ++ dquote :: nl :: lit "#EXT-X-ENDLIST")
     = inr ((lit "#EXT-X-MAP:URI=" ++ [dquote]) ++ ex_proxied_init
            ++ dquote :: nl :: lit "#EXT-X-ENDLIST").
Proof.
  assert (H1 : lit "init.mp4" <> []) by done.
  assert (H2 : dquote ∉ lit "init.mp4") by by apply not_elem_of_check.
  assert (H3 : occurrences (lit "init.mp4")
                 ((lit "#EXT-X-MAP:URI=" ++ [dquote]) ++ lit "init.mp4" ++ [dquote])
               = [length (lit "#EXT-X-MAP:URI=" ++ [dquote])]) by reflexivity.
  split; [exact H1|]. split; [exact H2|]. split; [exact H3|].
  rewrite (map_entry_rewritten Urllib.urljoin_merge ex_base ex_proxy None
             ex_scheme ex_netloc _ _ H1 H2 H3).
  reflexivity.
Defined.

Lemma attribute_entry_rewritten_witness :
  (nl ∉ ex_first_attrs)
  /\ lit "b.m3u8" <> []
  /\ (dquote ∉ lit "b.m3u8")
  /\ (nl ∉ lit "b.m3u8")
  /\ (nl ∉ lit ",DEFAULT=YES")
  /\ contains uri_attr (lit "b.m3u8" ++ dquote :: lit ",DEFAULT=YES") = false
  /\ occurrences (lit "b.m3u8")
       ((lit "#EXT-X-MEDIA:" ++ ex_first_attrs ++ uri_attr)
        ++ lit "b.m3u8" ++ [dquote])
     = [length (lit "#EXT-X-MEDIA:" ++ ex_first_attrs ++ uri_attr)]
  /\ sub pat_media
       (rewrite_url Urllib.urljoin_merge ex_base ex_proxy None ex_scheme ex_netloc)
       (lit "#EXT-X-MEDIA:" ++ ex_first_attrs ++ uri_attr ++ lit "b.m3u8"
        ++ dquote :: lit ",DEFAULT=YES" ++ nl :: lit "#EXT-X-ENDLIST")
     = inr ((lit "#EXT-X-MEDIA:" ++ ex_first_attrs ++ uri_attr) ++ ex_proxied_b
            ++ dquote :: lit ",DEFAULT=YES" ++ nl :: lit "#EXT-X-ENDLIST").
Proof.
  assert (H1 : nl ∉ ex_first_attrs) by by apply not_elem_of_check.
  assert (H2 : lit "b.m3u8" <> []) by done.
  assert (H3 : dquote ∉ lit "b.m3u8") by by apply not_elem_of_check.
  assert (H4 : nl ∉ lit "b.m3u8") by by apply not_elem_of_check.
  assert (H5 : nl ∉ lit ",DEFAULT=YES") by by apply not_elem_of_check.
  assert (H6 : nl :: lit "#EXT-X-ENDLIST" = []
               \/ exists r, nl :: lit "#EXT-X-ENDLIST" = nl :: r)
    by (right; by eexists).
  assert (H7 : contains uri_attr (lit "b.m3u8" ++ dquote :: lit ",DEFAULT=YES")
               = false) by reflexivity.
  assert (H8 : occurrences (lit "b.m3u8")
                 ((lit "#EXT-X-MEDIA:" ++ ex_first_attrs ++ uri_attr)
                  ++ lit "b.m3u8" ++ [dquote])
               = [length (lit "#EXT-X-MEDIA:" ++ ex_first_attrs ++ uri_attr)])
    by reflexivity.
  split; [exact H1|]. split; [exact H2|]. split; [exact H3|].
  split; [exact H4|]. split; [exact H5|]. split; [exact H7|].
  split; [exact H8|].
  change pat_media with (attribute_pattern (lit "#EXT-X-MEDIA:")).
  rewrite (attribute_entry_rewritten Urllib.urljoin_merge ex_base ex_proxy None
             ex_scheme ex_netloc _ _ _ _ _ H1 H2 H3 H4 H5 H6 H7 H8).
  reflexivity.
Defined.

Lemma rewrite_next_line_newlines_witness :
  (nl ∉ ex_proxy)
  /\ (forall r, Some ex_referer = Some r -> nl ∉ r)
  /\ (nl ∉ ex_scheme)
  /\ (nl ∉ ex_netloc)
  /\ (forall u r, nl ∉ u -> Urllib.urljoin_merge ex_base u = inr r -> nl ∉ r)
  /\ exists out,
       rewrite_next_line Urllib.urljoin_merge ex_base ex_proxy (Some ex_referer)
         ex_scheme ex_netloc ex_titled_playlist = inr out
       /\ newlines out = 2%nat.
Proof.
  assert (H1 : nl ∉ ex_proxy) by by apply not_elem_of_check.
  assert (H2 : forall r, Some ex_referer = Some r -> nl ∉ r).
  { intros r [= <-]. by apply not_elem_of_check. }
  assert (H3 : nl ∉ ex_scheme) by by apply not_elem_of_check.
  assert (H4 : nl ∉ ex_netloc) by by apply not_elem_of_check.
  assert (H5 : forall u r, nl ∉ u -> Urllib.urljoin_merge ex_base u = inr r ->
                 nl ∉ r).
  { intros u r Hu. apply urljoin_merge_one_line; [|done].
    by apply not_elem_of_check. }
  split; [exact H1|]. split; [exact H2|]. split; [exact H3|].
  split; [exact H4|]. split; [exact H5|].
  set (proxied := ex_proxied ++ lit "&referer=https://example.com/page").
  set (out := lit "#EXTM3U" ++ [nl] ++ lit "#EXTINF:10," ++ proxied ++ [nl]
              ++ proxied).
  assert (Hout : rewrite_next_line Urllib.urljoin_merge ex_base ex_proxy
                   (Some ex_referer) ex_scheme ex_netloc ex_titled_playlist
                 = inr out) by reflexivity.
  exists out. split; [exact Hout|].
  rewrite (rewrite_next_line_newlines Urllib.urljoin_merge ex_base ex_proxy
             (Some ex_referer) ex_scheme ex_netloc ex_titled_playlist out
             H1 H2 H3 H4 H5 Hout).
  reflexivity.
Defined.
